(** * Superhero network: a shallow embedding of [app/superhero_network.py]

    The script keeps two tables, [superheroes.csv] (columns id, name,
    created_at) and [links.csv] (columns source, target), and offers a few
    queries and two appending mutations over them.  A data frame is modelled
    as the list of its rows in file order, a column as the list of its cells,
    and every pandas / collections call the script makes is modelled by a
    function of the same name that follows the library's documented
    behaviour.  Calendar dates are proleptic Gregorian ordinals
    ([date.toordinal()]), so that [d - timedelta(days=3)] is [d - 3]. *)

From stdpp Require Import base decidable list strings gmap sorting.
From Stdlib Require Import ZArith Lia.

Local Open Scope Z_scope.

#[local] Set Warnings "-clear-no-such-hyp".

(** ** Rows of the two tables *)

Record Hero := mkHero {
  hero_id : Z;            (* column [id], read by pandas as int64 *)
  hero_name : string;     (* column [name] *)
  hero_created_at : Z     (* column [created_at], a date *)
}.

Record Link := mkLink {
  source : Z;
  target : Z
}.

#[global] Instance Hero_eq_dec : EqDecision Hero.
Proof. solve_decision. Defined.

#[global] Instance Link_eq_dec : EqDecision Link.
Proof. solve_decision. Defined.

(** ** The pandas fragment the script relies on *)

Module Pandas.

(** [df[mask]]: boolean indexing keeps the rows whose mask cell is True,
    in frame order. *)
Fixpoint loc_mask {A} (rows : list A) (mask : list bool) : list A :=
  match rows, mask with
  | r :: rows', b :: mask' =>
      if b then r :: loc_mask rows' mask' else loc_mask rows' mask'
  | _, _ => []
  end.

(** [col == v] and [col >= v], cell by cell. *)
Definition eq_mask `{EqDecision A} (col : list A) (v : A) : list bool :=
  map (λ c, bool_decide (c = v)) col.

Definition ge_mask (col : list Z) (v : Z) : list bool :=
  map (λ c, bool_decide (v ≤ c)) col.

(** [col.isin(values)]. *)
Definition isin (col : list Z) (values : list Z) : list bool :=
  map (λ c, bool_decide (c ∈ values)) col.

(** [Series.unique()]: the distinct values in order of first appearance,
    found with a table of the values already seen. *)
Fixpoint unique_from (seen : gset Z) (col : list Z) : list Z :=
  match col with
  | [] => []
  | c :: col' =>
      if decide (c ∈ seen) then unique_from seen col'
      else c :: unique_from ({[c]} ∪ seen) col'
  end.

Definition unique (col : list Z) : list Z := unique_from ∅ col.

(** [Series.nunique()]. *)
Definition nunique (col : list Z) : nat := length (unique col).

(** A scalar coming out of a reduction: an int64 or NaN. *)
Inductive scalar := Int64 (z : Z) | NaN.

(** [Series.max()]: NaN on an empty column. *)
Definition max (col : list Z) : scalar :=
  match col with
  | [] => NaN
  | c :: col' => Int64 (fold_left Z.max col' c)
  end.

(** int64 arithmetic wraps around. *)
Definition wrap64 (z : Z) : Z := (z + 2 ^ 63) `mod` 2 ^ 64 - 2 ^ 63.

(** [s + 1] for the scalar returned by a reduction; NaN + 1 is NaN. *)
Definition succ (s : scalar) : scalar :=
  match s with
  | Int64 z => Int64 (wrap64 (z + 1))
  | NaN => NaN
  end.

(** [int(series)]: the single element of a one-element Series; any other
    length raises TypeError ("cannot convert the series to int"). *)
Definition int (s : list Z) : option Z :=
  match s with
  | [z] => Some z
  | _ => None
  end.

End Pandas.

(** The exceptions that can escape the script's functions. *)
Inductive exn := IndexError | TypeError.

(** ** [basic_stats]: totals *)

(** [superheroes['id'].nunique()] *)
Definition count_nodes (superheroes : list Hero) : nat :=
  Pandas.nunique (map hero_id superheroes).

(** [len(links)] *)
Definition count_edges (links : list Link) : nat := length links.

(** ** [basic_stats]: heroes added in the last three days

    [superheroes[superheroes['created_at'] >= today - timedelta(days=3)]] *)
Definition recent_nodes (superheroes : list Hero) (today : Z) (days : Z)
  : list Hero :=
  Pandas.loc_mask superheroes
    (Pandas.ge_mask (map hero_created_at superheroes) (today - days)).

Definition recent_heroes (superheroes : list Hero) (today : Z) : list Hero :=
  recent_nodes superheroes today 3.

(** ** The [collections.Counter] fragment the script relies on *)

Module Collections.

(** A Counter is a dict, and a dict keeps its keys in insertion order: it is
    modelled as the list of its (key, count) items in that order. *)
Definition counter := list (Z * nat).

(** [c[x] += 1]: an existing key keeps its place, a new key goes last. *)
Fixpoint incr (c : counter) (x : Z) : counter :=
  match c with
  | [] => [(x, 1%nat)]
  | (y, n) :: c' =>
      if decide (x = y) then (y, S n) :: c' else (y, n) :: incr c' x
  end.

(** [Counter(iterable)] counts the elements in one left-to-right scan. *)
Definition Counter (xs : list Z) : counter := fold_left incr xs [].

(** [c[x]]: a missing key counts 0. *)
Fixpoint get (c : counter) (x : Z) : nat :=
  match c with
  | [] => 0%nat
  | (y, n) :: c' => if decide (x = y) then n else get c' x
  end.

(** [sorted(items, key=itemgetter(1), reverse=True)]: a stable sort, items
    of equal count keep their relative order. *)
Fixpoint insert_desc (p : Z * nat) (l : list (Z * nat)) : list (Z * nat) :=
  match l with
  | [] => [p]
  | q :: l' =>
      if decide (q.2 ≤ p.2)%nat then p :: q :: l' else q :: insert_desc p l'
  end.

Definition sorted_desc (l : list (Z * nat)) : list (Z * nat) :=
  foldr insert_desc [] l.

(** [c.most_common(n)] is [heapq.nlargest(n, c.items(), key=itemgetter(1))],
    which the library documents as equivalent to
    [sorted(c.items(), key=itemgetter(1), reverse=True)[:n]]. *)
Definition most_common (n : nat) (c : counter) : list (Z * nat) :=
  take n (sorted_desc c).

End Collections.

(** ** [basic_stats]: the most connected heroes *)

(** [links['source'].tolist() + links['target'].tolist()]: the whole source
    column, then the whole target column. *)
Definition endpoints_by_column (links : list Link) : list Z :=
  map source links ++ map target links.

(** [Counter(links['source'].tolist() + links['target'].tolist())] *)
Definition connection_counts (links : list Link) : Collections.counter :=
  Collections.Counter (endpoints_by_column links).

Definition degree (links : list Link) (node_id : Z) : nat :=
  Collections.get (connection_counts links) node_id.

Definition top_k_by_degree (k : nat) (links : list Link) : list (Z * nat) :=
  Collections.most_common k (connection_counts links).

(** [superheroes.loc[superheroes['id'] == hero_id, 'name'].values] *)
Definition names_of_id (superheroes : list Hero) (node_id : Z) : list string :=
  map hero_name
    (Pandas.loc_mask superheroes
       (Pandas.eq_mask (map hero_id superheroes) node_id)).

(** The printing loop over the ranking.  Each iteration takes [.values[0]],
    which raises IndexError on an empty array; the exception leaves the loop,
    after the lines of the earlier iterations have been printed. *)
Fixpoint top_connected_loop (superheroes : list Hero) (top : list (Z * nat))
  : list (string * nat) * option exn :=
  match top with
  | [] => ([], None)
  | (node_id, count) :: top' =>
      match names_of_id superheroes node_id with
      | [] => ([], Some IndexError)
      | name :: _ =>
          let '(printed, raised) := top_connected_loop superheroes top' in
          ((name, count) :: printed, raised)
      end
  end.

Definition top_connected (superheroes : list Hero) (links : list Link)
    (k : nat) : list (string * nat) * option exn :=
  top_connected_loop superheroes (top_k_by_degree k links).

(** What [basic_stats] prints, section by section. *)
Record stats := mkStats {
  total_superheroes : nat;
  total_connections : nat;
  recent : list Hero;
  top_3 : list (string * nat);
  raised : option exn
}.

Definition basic_stats (superheroes : list Hero) (links : list Link)
    (today : Z) : stats :=
  let '(printed, e) := top_connected superheroes links 3 in
  {| total_superheroes := count_nodes superheroes;
     total_connections := count_edges links;
     recent := recent_heroes superheroes today;
     top_3 := printed;
     raised := e |}.

(** ** [analyze_dataiskole] *)

(** [pd.concat([is_source, is_target]).unique()] *)
Definition friend_ids (links : list Link) (node_id : Z) : list Z :=
  let is_source :=
    map target
      (Pandas.loc_mask links (Pandas.eq_mask (map source links) node_id)) in
  let is_target :=
    map source
      (Pandas.loc_mask links (Pandas.eq_mask (map target links) node_id)) in
  Pandas.unique (is_source ++ is_target).

Inductive report :=
  | NotFound                                         (* "... not found in superhero list." *)
  | NoFriends (added : Z)                            (* "No friends found." *)
  | Friends (added : Z) (friend_names : list string) (* "Friends: ..." *).

(** The body of [analyze_dataiskole], for the name it looks up. *)
Definition neighbor_report (who : string) (superheroes : list Hero)
    (links : list Link) : report :=
  match Pandas.loc_mask superheroes
          (Pandas.eq_mask (map hero_name superheroes) who) with
  | [] => NotFound
  | row :: _ =>
      let ids := friend_ids links (hero_id row) in
      if decide (length ids = 0%nat) then NoFriends (hero_created_at row)
      else
        Friends (hero_created_at row)
          (map hero_name
             (Pandas.loc_mask superheroes
                (Pandas.isin (map hero_id superheroes) ids)))
  end.

Definition analyze_dataiskole : list Hero → list Link → report :=
  neighbor_report "dataiskole".

(** ** The two mutations *)

(** The two files on disk. *)
Record files := mkFiles {
  superheroes_csv : list Hero;
  links_csv : list Link
}.

(** A row as [add_superhero] writes it: the new id is whatever the
    reduction returned. *)
Record Row := mkRow {
  row_id : Pandas.scalar;
  row_name : string;
  row_created_at : Z
}.

Definition row_of_hero (h : Hero) : Row :=
  mkRow (Pandas.Int64 (hero_id h)) (hero_name h) (hero_created_at h).

(** [new_id = superheroes['id'].max() + 1] *)
Definition next_node_id (superheroes : list Hero) : Pandas.scalar :=
  Pandas.succ (Pandas.max (map hero_id superheroes)).

(** [add_superhero]: the table written back and the id announced. *)
Definition add_superhero (superheroes : list Hero) (name : string)
    (today : Z) : list Row * Pandas.scalar :=
  let new_id := next_node_id superheroes in
  (map row_of_hero superheroes ++ [mkRow new_id name today], new_id).

Inductive outcome :=
  | Added                (* "Connection added between ..." *)
  | NodeNotFound         (* "One or both superheroes not found.", then return *)
  | Raised (e : exn).

(** [add_connection]: the files afterwards and how the call ended. *)
Definition add_connection (fs : files) (name1 name2 : string)
  : files * outcome :=
  let superheroes := superheroes_csv fs in
  let id1 :=
    map hero_id
      (Pandas.loc_mask superheroes
         (Pandas.eq_mask (map hero_name superheroes) name1)) in
  let id2 :=
    map hero_id
      (Pandas.loc_mask superheroes
         (Pandas.eq_mask (map hero_name superheroes) name2)) in
  if decide (id1 = [] ∨ id2 = []) then (fs, NodeNotFound)
  else
    match Pandas.int id1, Pandas.int id2 with
    | Some a, Some b =>
        (mkFiles superheroes (links_csv fs ++ [mkLink a b]), Added)
    | _, _ => (fs, Raised TypeError)
    end.

(** ** [draw_graph]: what is handed to the drawing routine *)

Module Networkx.

(** An undirected [nx.Graph]: the node table [G._node], each node with the
    [label] attribute it was given if any, and the adjacency table
    [G._adj]. *)
Record Graph := mkGraph {
  node : gmap Z (option string);
  adj : gmap Z (gset Z)
}.

Definition empty : Graph := mkGraph ∅ ∅.

(** [G.add_node(n, label=l)]: a node not yet in [G._node] gets an empty
    adjacency; the attribute is set, or overwritten on a node already
    there. *)
Definition add_node (G : Graph) (n : Z) (l : string) : Graph :=
  match node G !! n with
  | None => mkGraph (<[n := Some l]> (node G)) (<[n := ∅]> (adj G))
  | Some _ => mkGraph (<[n := Some l]> (node G)) (adj G)
  end.

(** The first step of [G.add_edge(u, v)], for each end: a node not yet in
    [G._node] is added, without attributes. *)
Definition touch (G : Graph) (n : Z) : Graph :=
  match node G !! n with
  | None => mkGraph (<[n := None]> (node G)) (<[n := ∅]> (adj G))
  | Some _ => G
  end.

(** [G.add_edge(u, v)]: both ends become nodes, then [v] is entered in
    [G._adj[u]] and [u] in [G._adj[v]]. *)
Definition add_edge (G : Graph) (u v : Z) : Graph :=
  let G' := touch (touch G u) v in
  mkGraph (node G')
    (alter (λ s, {[u]} ∪ s) v (alter (λ s, {[v]} ∪ s) u (adj G'))).

(** [G[v]]: the neighbours recorded for [v] (none for a stranger). *)
Definition neighbors (G : Graph) (v : Z) : gset Z := default ∅ (adj G !! v).

End Networkx.

(** The two loops that build [G]. *)
Definition graph_of (superheroes : list Hero) (links : list Link)
  : Networkx.Graph :=
  fold_left (λ G e, Networkx.add_edge G (source e) (target e)) links
    (fold_left (λ G h, Networkx.add_node G (hero_id h) (hero_name h))
       superheroes Networkx.empty).

(** [labels = {row['id']: row['name'] for _, row in superheroes.iterrows()}] *)
Definition labels_of (superheroes : list Hero) : gmap Z string :=
  fold_left (λ labels h, <[hero_id h := hero_name h]> labels) superheroes ∅.

(** [draw_graph] up to the call of [nx.draw]: the graph and the labels it
    passes on (the layout and the picture are the libraries' work). *)
Definition draw_graph (superheroes : list Hero) (links : list Link)
  : Networkx.Graph * gmap Z string :=
  (graph_of superheroes links, labels_of superheroes).

(** ** The vocabulary of the properties *)

(** The window the specification words describe: both ends inclusive. *)
Definition in_window (today days : Z) (h : Hero) : Prop :=
  today - days ≤ hero_created_at h ≤ today.

(** The position at which [x] first occurs in [xs] ([length xs] if none). *)
Fixpoint first_seen (xs : list Z) (x : Z) : nat :=
  match xs with
  | [] => 0%nat
  | y :: xs' => if decide (y = x) then 0%nat else S (first_seen xs' x)
  end.

(** [p] was seen before [q] in the scan [seen]. *)
Definition earlier (seen : list Z) (p q : Z * nat) : Prop :=
  (first_seen seen p.1 < first_seen seen q.1)%nat.

(** [p] may stand before [q] in a ranking: its count is not smaller, and on
    equal counts its id was seen first. *)
Definition outranks (seen : list Z) (p q : Z * nat) : Prop :=
  (q.2 ≤ p.2)%nat ∧ (p.2 = q.2 → earlier seen p q).

Definition ranked_by (seen : list Z) (r : list (Z * nat)) : Prop :=
  ∀ i j p q,
    r !! i = Some p → r !! j = Some q → (i < j)%nat → outranks seen p q.

(** The order in which ids are met when the edges are read one by one, as
    the specification words it. *)
Definition endpoints_by_edge (links : list Link) : list Z :=
  flat_map (λ e, [source e; target e]) links.

(** The number of edges in which [v] appears as source or as target, as the
    specification words it, and the number of self-loops at [v]. *)
Definition incident_edges (links : list Link) (v : Z) : nat :=
  length (filter (λ e, source e = v ∨ target e = v) links).

Definition self_loops (links : list Link) (v : Z) : nat :=
  length (filter (λ e, source e = v ∧ target e = v) links).

(** The neighbour set as the specification words it: targets where the id
    is source, sources where it is target, the id itself taken out. *)
Definition neighbors_spec (links : list Link) (v : Z) : gset Z :=
  (list_to_set (map target (filter (λ e, source e = v) links))
   ∪ list_to_set (map source (filter (λ e, target e = v) links))) ∖ {[v]}.

(** A printed line agrees with a ranked pair: same count, and the name is
    that of the first row carrying the id. *)
Definition line_of (superheroes : list Hero) (line : string * nat)
    (p : Z * nat) : Prop :=
  head (names_of_id superheroes p.1) = Some line.1 ∧ line.2 = p.2.

(** A link with its two ends exchanged. *)
Definition reverse_link (e : Link) : Link := mkLink (target e) (source e).

(** The node table and the adjacency table of a graph have the same keys. *)
Definition well_keyed (G : Networkx.Graph) : Prop :=
  ∀ n, Networkx.node G !! n = None ↔ Networkx.adj G !! n = None.


(** * Properties *)

(** ** Boolean indexing and [unique] *)

Section pandas_facts.

Context {A : Type}.

Lemma loc_mask_filter (P : A → Prop) `{!∀ r, Decision (P r)} (rows : list A) :
  Pandas.loc_mask rows (map (λ r, bool_decide (P r)) rows) = filter P rows.
Proof.
  induction rows as [|r rows IH]; [done|].
  cbn [map Pandas.loc_mask]. rewrite IH.
  destruct (decide (P r)) as [Hr|Hr].
  - by rewrite bool_decide_eq_true_2, filter_cons_True.
  - by rewrite bool_decide_eq_false_2, filter_cons_False.
Qed.

Lemma loc_eq_mask `{EqDecision B} (g : A → B) (v : B) (rows : list A) :
  Pandas.loc_mask rows (Pandas.eq_mask (map g rows) v)
  = filter (λ r, g r = v) rows.
Proof.
  unfold Pandas.eq_mask. rewrite map_map.
  apply (loc_mask_filter (λ r, g r = v)).
Qed.

Lemma loc_ge_mask (g : A → Z) (v : Z) (rows : list A) :
  Pandas.loc_mask rows (Pandas.ge_mask (map g rows) v)
  = filter (λ r, v ≤ g r) rows.
Proof.
  unfold Pandas.ge_mask. rewrite map_map.
  apply (loc_mask_filter (λ r, v ≤ g r)).
Qed.

Lemma loc_isin (g : A → Z) (values : list Z) (rows : list A) :
  Pandas.loc_mask rows (Pandas.isin (map g rows) values)
  = filter (λ r, g r ∈ values) rows.
Proof.
  unfold Pandas.isin. rewrite map_map.
  apply (loc_mask_filter (λ r, g r ∈ values)).
Qed.

End pandas_facts.

Lemma elem_of_unique_from (seen : gset Z) (col : list Z) (x : Z) :
  x ∈ Pandas.unique_from seen col ↔ x ∈ col ∧ x ∉ seen.
Proof.
  revert seen. induction col as [|c col IH]; intros seen; cbn.
  - set_solver.
  - destruct (decide (c ∈ seen)) as [Hc|Hc].
    + rewrite IH. set_solver.
    + rewrite elem_of_cons, IH. destruct (decide (x = c)); set_solver.
Qed.

Lemma NoDup_unique_from (seen : gset Z) (col : list Z) :
  NoDup (Pandas.unique_from seen col).
Proof.
  revert seen. induction col as [|c col IH]; intros seen; cbn.
  - constructor.
  - destruct (decide (c ∈ seen)); [apply IH|].
    constructor; [|apply IH].
    rewrite elem_of_unique_from. set_solver.
Qed.

Lemma elem_of_unique (col : list Z) (x : Z) : x ∈ Pandas.unique col ↔ x ∈ col.
Proof. unfold Pandas.unique. rewrite elem_of_unique_from. set_solver. Qed.

Lemma NoDup_unique (col : list Z) : NoDup (Pandas.unique col).
Proof. apply NoDup_unique_from. Qed.

Lemma nunique_size (col : list Z) :
  Pandas.nunique col = size (list_to_set col : gset Z).
Proof.
  unfold Pandas.nunique.
  rewrite <-(list_to_set_elements_L (list_to_set col : gset Z)) at 1.
  assert (Pandas.unique col ≡ₚ elements (list_to_set col : gset Z)) as ->.
  { apply NoDup_Permutation; [apply NoDup_unique|apply NoDup_elements|].
    intros x. rewrite elem_of_unique, elem_of_elements. set_solver. }
  rewrite list_to_set_elements_L. done.
Qed.

Lemma nunique_le_length (col : list Z) : (Pandas.nunique col ≤ length col)%nat.
Proof.
  unfold Pandas.nunique, Pandas.unique. generalize (∅ : gset Z).
  induction col as [|c col IH]; intros seen; cbn; [lia|].
  destruct (decide (c ∈ seen)); cbn.
  - specialize (IH seen). lia.
  - specialize (IH ({[c]} ∪ seen)). lia.
Qed.

(** ** Totals *)

(** C8. [count_nodes] is the number of distinct id values of the collection,
    that is the size of the set of its ids; rows that repeat an id are
    counted once, so the count never exceeds the number of rows. *)
Theorem count_nodes_distinct_ids (superheroes : list Hero) :
  count_nodes superheroes
  = size (list_to_set (map hero_id superheroes) : gset Z)
  ∧ (count_nodes superheroes ≤ length superheroes)%nat.
Proof.
  unfold count_nodes. split.
  - apply nunique_size.
  - rewrite <-(length_map hero_id superheroes). apply nunique_le_length.
Qed.

Example count_nodes_duplicate_rows :
  let superheroes :=
    [mkHero 1 "ada" 100; mkHero 1 "ada again" 101; mkHero 2 "bob" 102] in
  count_nodes superheroes = 2%nat ∧ length superheroes = 3%nat.
Proof. split; reflexivity. Qed.

(** ** Recent heroes *)

Lemma recent_nodes_filter (superheroes : list Hero) (today days : Z) :
  recent_nodes superheroes today days
  = filter (λ h, today - days ≤ hero_created_at h) superheroes.
Proof. unfold recent_nodes. apply loc_ge_mask. Qed.

(** C7, as the code has it.  [recent_nodes superheroes now 3] keeps, in
    collection order and with their multiplicity, exactly the rows dated
    [now - 3] or later: a row dated exactly [now - 3] is kept, and there is
    no upper end, so a row dated after [now] is kept as well. *)
Theorem recent_nodes_from_three_days_ago (superheroes : list Hero) (now : Z) :
  recent_nodes superheroes now 3
  = filter (λ h, now - 3 ≤ hero_created_at h) superheroes
  ∧ recent_nodes superheroes now 3 `sublist_of` superheroes
  ∧ (∀ h, h ∈ recent_nodes superheroes now 3
          ↔ h ∈ superheroes ∧ now - 3 ≤ hero_created_at h)
  ∧ (∀ h, h ∈ superheroes ∧ hero_created_at h = now - 3
          → h ∈ recent_nodes superheroes now 3).
Proof.
  rewrite recent_nodes_filter. split; [done|]. split; [apply sublist_filter|].
  split.
  - intros h. rewrite list_elem_of_filter. tauto.
  - intros h [Hin Hd]. apply list_elem_of_filter. split; [lia|done].
Qed.

(** C7, as stated, fails: a row dated after [now] lies outside
    [[now - 3, now]] and is returned all the same. *)
Lemma recent_nodes_keeps_future_rows :
  let superheroes := [mkHero 1 "ada" 20; mkHero 2 "bob" 31] in
  ¬ (∀ h, h ∈ recent_nodes superheroes 30 3
          ↔ h ∈ superheroes ∧ in_window 30 3 h).
Proof.
  intros superheroes Hclaim.
  destruct (proj1 (Hclaim (mkHero 2 "bob" 31))) as [_ [_ Hle]].
  - vm_compute. apply list_elem_of_here.
  - cbn in Hle. lia.
Qed.

(** ** Strongly sorted lists *)

Section strongly_sorted.

Context {A : Type}.

Lemma StronglySorted_on (R R' : relation A) (P : A → Prop) (l : list A) :
  (∀ a b, P a → P b → R a b → R' a b) →
  Forall P l → StronglySorted R l → StronglySorted R' l.
Proof.
  intros HR HP Hs. induction Hs as [|a l Hs IH Ha]; [constructor|].
  apply Forall_cons in HP as [Pa HP]. constructor; [by apply IH|].
  rewrite Forall_forall in *. intros b Hb. apply HR; auto.
Qed.

Lemma StronglySorted_of_fmap {B} (f : A → B) (R : relation B) (l : list A) :
  StronglySorted R (f <$> l) → StronglySorted (λ a b, R (f a) (f b)) l.
Proof.
  induction l as [|a l IH]; cbn; intros Hs; [constructor|].
  apply StronglySorted_inv in Hs as [Hs Ha].
  constructor; [by apply IH|].
  apply Forall_forall. intros b Hb.
  apply (proj1 (Forall_forall _ _) Ha). apply list_elem_of_fmap. eauto.
Qed.

Lemma StronglySorted_take (R : relation A) (k : nat) (l : list A) :
  StronglySorted R l → StronglySorted R (take k l).
Proof.
  intros Hs. revert k. induction Hs as [|a l Hs IH Ha]; intros [|k]; cbn;
    try constructor.
  - apply IH.
  - by apply Forall_take.
Qed.

Lemma StronglySorted_lookup (R : relation A) (l : list A) (i j : nat) a b :
  StronglySorted R l → l !! i = Some a → l !! j = Some b → (i < j)%nat →
  R a b.
Proof.
  intros Hs. revert i j. induction Hs as [|c l Hs IH Hc]; intros i j; [done|].
  destruct i as [|i], j as [|j]; cbn; intros Hi Hj Hlt; try lia.
  - injection Hi as ->. rewrite Forall_lookup in Hc. eauto.
  - apply (IH i j); [done..|lia].
Qed.

End strongly_sorted.

(** ** Counting *)

Lemma get_incr (c : Collections.counter) (x y : Z) :
  Collections.get (Collections.incr c x) y
  = if decide (y = x) then S (Collections.get c y) else Collections.get c y.
Proof.
  induction c as [|[z n] c IH]; cbn.
  - by destruct (decide (y = x)).
  - destruct (decide (x = z)) as [->|Hxz]; cbn.
    + destruct (decide (y = z)); done.
    + rewrite IH. destruct (decide (y = z)) as [->|]; [|done].
      rewrite decide_False; [done|congruence].
Qed.

Lemma get_fold_incr (xs : list Z) (c : Collections.counter) (y : Z) :
  Collections.get (fold_left Collections.incr xs c) y
  = (Collections.get c y + length (filter (λ x, x = y) xs))%nat.
Proof.
  revert c. induction xs as [|x xs IH]; intros c; [cbn; lia|].
  cbn [fold_left]. rewrite IH, get_incr.
  destruct (decide (y = x)) as [->|Hne].
  - rewrite filter_cons_True by done. cbn [length]. lia.
  - rewrite filter_cons_False by congruence. done.
Qed.

Lemma get_Counter (xs : list Z) (y : Z) :
  Collections.get (Collections.Counter xs) y
  = length (filter (λ x, x = y) xs).
Proof. unfold Collections.Counter. by rewrite get_fold_incr. Qed.

Lemma keys_incr (c : Collections.counter) (x : Z) :
  (Collections.incr c x).*1 = if decide (x ∈ c.*1) then c.*1 else c.*1 ++ [x].
Proof.
  induction c as [|[z n] c IH]; cbn.
  - rewrite decide_False; [done|]. apply not_elem_of_nil.
  - destruct (decide (x = z)) as [->|Hxz]; cbn.
    + rewrite decide_True; [done|]. apply list_elem_of_here.
    + rewrite IH. destruct (decide (x ∈ c.*1)) as [Hin|Hin].
      * rewrite decide_True; [done|]. by apply list_elem_of_further.
      * rewrite decide_False; [done|]. rewrite elem_of_cons. tauto.
Qed.

(** The keys of a Counter come in order of first appearance. *)
Lemma keys_fold_incr (xs : list Z) (c : Collections.counter) :
  (fold_left Collections.incr xs c).*1
  = c.*1 ++ Pandas.unique_from (list_to_set c.*1) xs.
Proof.
  revert c. induction xs as [|x xs IH]; intros c; cbn.
  - by rewrite app_nil_r.
  - rewrite IH, keys_incr.
    destruct (decide (x ∈ c.*1)) as [Hin|Hin].
    + rewrite decide_True; [done|]. by apply elem_of_list_to_set.
    + rewrite decide_False by (by rewrite elem_of_list_to_set).
      rewrite <-app_assoc. cbn. do 3 f_equal.
      rewrite list_to_set_app_L. cbn. set_solver.
Qed.

Lemma keys_Counter (xs : list Z) :
  (Collections.Counter xs).*1 = Pandas.unique xs.
Proof. unfold Collections.Counter. by rewrite keys_fold_incr. Qed.

Lemma get_key (c : Collections.counter) (p : Z * nat) :
  NoDup c.*1 → p ∈ c → Collections.get c p.1 = p.2.
Proof.
  induction c as [|[z n] c IH]; cbn; intros Hnd Hin.
  - by apply elem_of_nil in Hin.
  - apply NoDup_cons in Hnd as [Hz Hnd].
    apply elem_of_cons in Hin as [->|Hin]; cbn.
    + by rewrite decide_True.
    + rewrite decide_False; [by apply IH|].
      intros <-. apply Hz. apply list_elem_of_fmap. eauto.
Qed.

Lemma unique_from_first_seen (seen : gset Z) (xs : list Z) :
  StronglySorted (λ a b, (first_seen xs a < first_seen xs b)%nat)
    (Pandas.unique_from seen xs).
Proof.
  revert seen. induction xs as [|x xs IH]; intros seen; cbn; [constructor|].
  assert (∀ s, x ∈ s →
    StronglySorted
      (λ a b, (first_seen (x :: xs) a < first_seen (x :: xs) b)%nat)
      (Pandas.unique_from s xs)) as Htail.
  { intros s Hx.
    apply (StronglySorted_on _ _ (λ a, a ≠ x) _) with (3 := IH s).
    - intros a b Ha Hb Hlt. cbn. rewrite !decide_False by congruence. lia.
    - apply Forall_forall. intros a Ha ->.
      apply elem_of_unique_from in Ha as [_ Ha]. done. }
  destruct (decide (x ∈ seen)) as [Hx|Hx]; [by apply Htail|].
  constructor; [apply Htail; set_solver|].
  apply Forall_forall. intros b Hb.
  apply elem_of_unique_from in Hb as [_ Hb]. cbn.
  rewrite decide_True by done. rewrite decide_False by set_solver. lia.
Qed.

Lemma Counter_first_seen (xs : list Z) :
  StronglySorted (λ p q, (first_seen xs p.1 < first_seen xs q.1)%nat)
    (Collections.Counter xs).
Proof.
  apply (StronglySorted_of_fmap fst
           (λ a b, (first_seen xs a < first_seen xs b)%nat)).
  rewrite keys_Counter.
  apply unique_from_first_seen.
Qed.

(** ** The stable descending sort *)

Section ranking.

Variable seen : list Z.

Lemma insert_desc_perm (p : Z * nat) (l : list (Z * nat)) :
  Collections.insert_desc p l ≡ₚ p :: l.
Proof.
  induction l as [|q l IH]; cbn; [done|].
  destruct (decide (q.2 ≤ p.2)%nat); [done|].
  rewrite IH. apply Permutation_swap.
Qed.

Lemma sorted_desc_perm (l : list (Z * nat)) : Collections.sorted_desc l ≡ₚ l.
Proof.
  induction l as [|p l IH]; cbn; [done|].
  by rewrite insert_desc_perm, IH.
Qed.

Lemma insert_desc_outranks (p : Z * nat) (l : list (Z * nat)) :
  Forall (earlier seen p) l → StronglySorted (outranks seen) l →
  StronglySorted (outranks seen) (Collections.insert_desc p l).
Proof.
  intros Hp Hs. induction Hs as [|q l Hs IH Hq]; cbn.
  - repeat constructor.
  - apply Forall_cons in Hp as [Hpq Hp].
    destruct (decide (q.2 ≤ p.2)%nat) as [Hle|Hgt].
    + constructor; [by constructor|].
      constructor; [by split|].
      rewrite Forall_forall in *. intros z Hz.
      destruct (Hq z Hz) as [Hzq _]. split; [lia|]. intros _. by apply Hp.
    + constructor; [by apply IH|].
      rewrite insert_desc_perm. constructor; [|done].
      split; [lia|]. intros Heq. lia.
Qed.

Lemma sorted_desc_stable (l : list (Z * nat)) :
  StronglySorted (earlier seen) l →
  StronglySorted (outranks seen) (Collections.sorted_desc l).
Proof.
  induction 1 as [|p l Hs IH Hp]; cbn; [constructor|].
  apply insert_desc_outranks; [|done]. by rewrite sorted_desc_perm.
Qed.

End ranking.

Lemma top_k_by_degree_elem (links : list Link) (k : nat) (p : Z * nat) :
  p ∈ top_k_by_degree k links →
  p.1 ∈ endpoints_by_column links ∧ p.2 = degree links p.1.
Proof.
  unfold top_k_by_degree, Collections.most_common, degree, connection_counts.
  intros Hp. apply (subseteq_take k) in Hp.
  rewrite sorted_desc_perm in Hp. split.
  - rewrite <-elem_of_unique, <-keys_Counter. apply list_elem_of_fmap. eauto.
  - symmetry. apply get_key; [|done]. rewrite keys_Counter. apply NoDup_unique.
Qed.

(** C1, as the code has it.  [top_k_by_degree] returns at most [k] pairs
    (id, degree of id), in descending order of degree; two ids of equal
    degree appear in the order in which they are first met in the list made
    of the whole source column followed by the whole target column. *)
Theorem top_k_by_degree_ranking (links : list Link) (k : nat) :
  ranked_by (endpoints_by_column links) (top_k_by_degree k links)
  ∧ (∀ p, p ∈ top_k_by_degree k links
          → p.1 ∈ endpoints_by_column links ∧ p.2 = degree links p.1)
  ∧ length (top_k_by_degree k links)
    = (k `min` Pandas.nunique (endpoints_by_column links))%nat.
Proof.
  split; [|split].
  - intros i j p q Hi Hj Hlt.
    eapply StronglySorted_lookup; [|exact Hi|exact Hj|exact Hlt].
    apply StronglySorted_take, sorted_desc_stable, Counter_first_seen.
  - apply top_k_by_degree_elem.
  - unfold top_k_by_degree, Collections.most_common, connection_counts.
    rewrite length_take, sorted_desc_perm. unfold Pandas.nunique.
    by rewrite <-keys_Counter, length_fmap.
Qed.

Example top_k_by_degree_triangle :
  top_k_by_degree 3 [mkLink 10 20; mkLink 10 30; mkLink 20 30]
  = [(10, 2%nat); (20, 2%nat); (30, 2%nat)].
Proof. reflexivity. Qed.

(** C1, as stated, fails: with the edges (1,2) and (3,4) every id has
    degree 1 and an edge-by-edge scan meets 2 before 3, but the ranking
    lists 3 before 2. *)
Lemma top_k_by_degree_not_edge_order :
  ¬ ranked_by (endpoints_by_edge [mkLink 1 2; mkLink 3 4])
      (top_k_by_degree 3 [mkLink 1 2; mkLink 3 4]).
Proof.
  intros Hclaim.
  destruct (Hclaim 1%nat 2%nat (3, 1%nat) (2, 1%nat)) as [_ Hearlier];
    [reflexivity | reflexivity | lia |].
  specialize (Hearlier eq_refl). unfold earlier in Hearlier.
  vm_compute in Hearlier. lia.
Qed.

(** ** Degree *)

Lemma length_filter_column (g : Link → Z) (links : list Link) (v : Z) :
  length (filter (λ x, x = v) (map g links))
  = length (filter (λ e, g e = v) links).
Proof.
  induction links as [|e links IH]; [done|]. cbn [map].
  destruct (decide (g e = v)) as [He|He].
  - rewrite !filter_cons_True by done. cbn [length]. by rewrite IH.
  - by rewrite !filter_cons_False by done.
Qed.

Lemma degree_columns (links : list Link) (v : Z) :
  degree links v
  = (length (filter (λ e, source e = v) links)
     + length (filter (λ e, target e = v) links))%nat.
Proof.
  unfold degree, connection_counts, endpoints_by_column.
  by rewrite get_Counter, filter_app, length_app, !length_filter_column.
Qed.

(** C2, as the code has it.  [degree] of an id is the number of edges whose
    source is that id plus the number of edges whose target is that id, so
    it is the number of edges in which the id appears plus the number of
    self-loops at it: a self-loop contributes 2, every other edge in which
    the id appears contributes 1. *)
Theorem degree_counts_endpoints (links : list Link) (v : Z) :
  degree links v
  = (length (filter (λ e, source e = v) links)
     + length (filter (λ e, target e = v) links))%nat
  ∧ degree links v = (incident_edges links v + self_loops links v)%nat.
Proof.
  split; [apply degree_columns|].
  rewrite degree_columns. unfold incident_edges, self_loops.
  induction links as [|e links IH]; [done|].
  destruct (decide (source e = v)) as [Hs|Hs],
           (decide (target e = v)) as [Ht|Ht];
    repeat first
      [ rewrite filter_cons_True by tauto
      | rewrite filter_cons_False by tauto ];
    cbn [length]; lia.
Qed.

(** C2, as stated, fails: one self-loop is one edge in which the id
    appears, and it gives the id degree 2. *)
Lemma degree_self_loop_counts_twice :
  ¬ (degree [mkLink 7 7] 7 = incident_edges [mkLink 7 7] 7)
  ∧ degree [mkLink 7 7] 7 = 2%nat.
Proof. split; [vm_compute; lia | reflexivity]. Qed.

(** ** Neighbours *)

Lemma elem_of_friend_ids (links : list Link) (v x : Z) :
  x ∈ friend_ids links v
  ↔ (∃ e, e ∈ links ∧ source e = v ∧ target e = x)
    ∨ (∃ e, e ∈ links ∧ target e = v ∧ source e = x).
Proof.
  unfold friend_ids.
  rewrite elem_of_unique, !(loc_eq_mask (A:=Link)), elem_of_app.
  rewrite !list_elem_of_fmap.
  setoid_rewrite list_elem_of_filter. naive_solver.
Qed.

(** C5, as the code has it.  The friend ids of [v] are, without repeats,
    the targets of the edges whose source is [v] together with the sources
    of the edges whose target is [v]; [v] itself is not taken out: it is
    among its own friend ids exactly when the edges hold a self-loop
    (v, v). *)
Theorem friend_ids_union (links : list Link) (v : Z) :
  (list_to_set (friend_ids links v) : gset Z)
  = list_to_set (map target (filter (λ e, source e = v) links))
    ∪ list_to_set (map source (filter (λ e, target e = v) links))
  ∧ NoDup (friend_ids links v)
  ∧ (v ∈ friend_ids links v ↔ mkLink v v ∈ links).
Proof.
  split; [|split].
  - apply set_eq. intros x.
    rewrite elem_of_union, !elem_of_list_to_set, elem_of_friend_ids.
    rewrite !list_elem_of_fmap. setoid_rewrite list_elem_of_filter.
    naive_solver.
  - apply NoDup_unique.
  - rewrite elem_of_friend_ids. split.
    + intros [([s t] & He & Hs & Ht)|([s t] & He & Ht & Hs)];
        cbn in *; by subst.
    + intros He. left. by exists (mkLink v v).
Qed.

(** C5, as stated, fails: a self-loop puts the id among its own friend ids,
    so the friend ids are not the set with the id taken out. *)
Lemma friend_ids_keep_self :
  5 ∈ friend_ids [mkLink 5 5; mkLink 5 6] 5
  ∧ ¬ ((list_to_set (friend_ids [mkLink 5 5; mkLink 5 6] 5) : gset Z)
       = neighbors_spec [mkLink 5 5; mkLink 5 6] 5).
Proof.
  assert (5 ∈ friend_ids [mkLink 5 5; mkLink 5 6] 5) as Hin.
  { vm_compute. apply list_elem_of_here. }
  split; [done|]. intros Heq.
  assert (5 ∈ neighbors_spec [mkLink 5 5; mkLink 5 6] 5) as Hbad.
  { rewrite <-Heq. by apply elem_of_list_to_set. }
  unfold neighbors_spec in Hbad. set_solver.
Qed.

(** ** Resolving ranked ids to names *)

Lemma names_of_id_filter (superheroes : list Hero) (v : Z) :
  names_of_id superheroes v
  = map hero_name (filter (λ h, hero_id h = v) superheroes).
Proof. unfold names_of_id. by rewrite (loc_eq_mask (A:=Hero)). Qed.

Lemma names_of_id_nil (superheroes : list Hero) (v : Z) :
  names_of_id superheroes v = [] ↔ ∀ h, h ∈ superheroes → hero_id h ≠ v.
Proof.
  rewrite names_of_id_filter. split.
  - intros Hnil h Hin Hid. apply fmap_nil_inv in Hnil.
    assert (h ∈ filter (λ h, hero_id h = v) superheroes) as Hf
      by (by apply list_elem_of_filter).
    rewrite Hnil in Hf. by apply elem_of_nil in Hf.
  - intros Hno. induction superheroes as [|h superheroes IH]; [done|].
    rewrite filter_cons_False by (apply Hno, list_elem_of_here).
    apply IH. intros h' Hin. by apply Hno, list_elem_of_further.
Qed.

Lemma top_connected_loop_ok (superheroes : list Hero) (top : list (Z * nat)) :
  Forall (λ p, names_of_id superheroes p.1 ≠ []) top →
  ∃ printed, top_connected_loop superheroes top = (printed, None)
             ∧ Forall2 (line_of superheroes) printed top.
Proof.
  induction 1 as [|[v n] top Hv _ IH]; cbn.
  - by exists [].
  - destruct IH as (printed & -> & Hlines). cbn in Hv.
    destruct (names_of_id superheroes v) as [|nm nms] eqn:Hnames; [done|].
    exists ((nm, n) :: printed). split; [done|].
    constructor; [|done]. split; cbn; [by rewrite Hnames|done].
Qed.

Lemma top_connected_loop_raises (superheroes : list Hero)
    (top : list (Z * nat)) :
  Exists (λ p, names_of_id superheroes p.1 = []) top →
  ∃ printed before q after,
    top_connected_loop superheroes top = (printed, Some IndexError)
    ∧ top = before ++ q :: after
    ∧ names_of_id superheroes q.1 = []
    ∧ Forall2 (line_of superheroes) printed before.
Proof.
  induction top as [|[v n] top IH]; intros Hex; [by apply Exists_nil in Hex|].
  cbn. destruct (names_of_id superheroes v) as [|nm nms] eqn:Hnames.
  - exists [], [], (v, n), top. by repeat split.
  - apply Exists_cons in Hex as [Hv|Hex]; [cbn in Hv; congruence|].
    destruct (IH Hex) as (printed & before & q & after & -> & -> & Hq & Hl).
    exists ((nm, n) :: printed), ((v, n) :: before), q, after.
    repeat split; [done|].
    constructor; [|done]. split; cbn; [by rewrite Hnames|done].
Qed.

(** C6.  When the ranking holds an id that no row of the Nodes collection
    carries, [top_connected] ends in an error, the IndexError raised by
    [.values[0]] (the code's name-resolution error): the id is not skipped,
    the lines printed are those of the ranked ids before the first
    unresolved one and nothing is printed after it. *)
Theorem top_connected_unresolved_id_raises (superheroes : list Hero)
    (links : list Link) (k : nat) (p : Z * nat) :
  p ∈ top_k_by_degree k links →
  (∀ h, h ∈ superheroes → hero_id h ≠ p.1) →
  ∃ printed before q after,
    top_connected superheroes links k = (printed, Some IndexError)
    ∧ top_k_by_degree k links = before ++ q :: after
    ∧ (∀ h, h ∈ superheroes → hero_id h ≠ q.1)
    ∧ Forall2 (line_of superheroes) printed before.
Proof.
  intros Hp Hno. unfold top_connected.
  destruct (top_connected_loop_raises superheroes (top_k_by_degree k links))
    as (printed & before & q & after & Hrun & Htop & Hq & Hlines).
  { apply Exists_exists. exists p. split; [done|]. by apply names_of_id_nil. }
  exists printed, before, q, after. repeat split; try done.
  by apply names_of_id_nil.
Qed.

Lemma top_connected_unresolved_id_raises_witness :
  ∃ printed before q after,
    top_connected [mkHero 1 "ada" 100; mkHero 2 "bob" 101]
                  [mkLink 1 2; mkLink 1 9; mkLink 2 1] 3
    = (printed, Some IndexError)
    ∧ top_k_by_degree 3 [mkLink 1 2; mkLink 1 9; mkLink 2 1]
      = before ++ q :: after
    ∧ (∀ h, h ∈ [mkHero 1 "ada" 100; mkHero 2 "bob" 101] → hero_id h ≠ q.1)
    ∧ Forall2 (line_of [mkHero 1 "ada" 100; mkHero 2 "bob" 101])
        printed before.
Proof.
  apply (top_connected_unresolved_id_raises
           [mkHero 1 "ada" 100; mkHero 2 "bob" 101]
           [mkLink 1 2; mkLink 1 9; mkLink 2 1] 3 (9, 1%nat)).
  - vm_compute. do 2 apply list_elem_of_further. apply list_elem_of_here.
  - intros h Hin. cbn.
    apply elem_of_cons in Hin as [->|Hin]; [cbn; lia|].
    apply elem_of_cons in Hin as [->|Hin]; [cbn; lia|].
    by apply elem_of_nil in Hin.
Defined.

Example top_connected_stops_at_dangling_id :
  top_connected [mkHero 1 "ada" 100; mkHero 2 "bob" 101]
                [mkLink 1 2; mkLink 1 9; mkLink 2 1] 3
  = ([("ada", 3%nat); ("bob", 2%nat)], Some IndexError).
Proof. reflexivity. Qed.

(** ** The neighbour report *)

(** C10.  For a name that some row carries, the report is always produced
    (the function has no failing path): it is about the first row with
    that name, and its friend names are the names of exactly the rows whose
    id is among the friend ids, in collection order.  A friend id that no
    row carries contributes no name and raises nothing. *)
Theorem neighbor_report_omits_unknown_friends (who : string)
    (superheroes : list Hero) (links : list Link) :
  (∃ h, h ∈ superheroes ∧ hero_name h = who) →
  ∃ row,
    head (filter (λ h, hero_name h = who) superheroes) = Some row
    ∧ neighbor_report who superheroes links
      = (if decide (friend_ids links (hero_id row) = [])
         then NoFriends (hero_created_at row)
         else Friends (hero_created_at row)
                (map hero_name
                   (filter (λ h, hero_id h ∈ friend_ids links (hero_id row))
                      superheroes))).
Proof.
  intros (h & Hin & Hname). unfold neighbor_report.
  rewrite (loc_eq_mask (A:=Hero)).
  destruct (filter (λ h, hero_name h = who) superheroes) as [|row rows] eqn:Hf.
  { exfalso. eapply filter_nil_not_elem_of; [exact Hf|exact Hname|exact Hin]. }
  exists row. split; [done|].
  rewrite (loc_isin (A:=Hero)).
  destruct (friend_ids links (hero_id row)) as [|x ids]; [done|].
  rewrite decide_False by (cbn; lia). by rewrite decide_False.
Qed.

Lemma neighbor_report_omits_unknown_friends_witness :
  ∃ row,
    head (filter (λ h, hero_name h = "dataiskole")
            [mkHero 1 "dataiskole" 100; mkHero 2 "bob" 101])
    = Some row
    ∧ neighbor_report "dataiskole"
        [mkHero 1 "dataiskole" 100; mkHero 2 "bob" 101]
        [mkLink 1 2; mkLink 9 1]
      = (if decide (friend_ids [mkLink 1 2; mkLink 9 1] (hero_id row) = [])
         then NoFriends (hero_created_at row)
         else Friends (hero_created_at row)
                (map hero_name
                   (filter
                      (λ h, hero_id h
                            ∈ friend_ids [mkLink 1 2; mkLink 9 1] (hero_id row))
                      [mkHero 1 "dataiskole" 100; mkHero 2 "bob" 101]))).
Proof.
  apply (neighbor_report_omits_unknown_friends "dataiskole"
           [mkHero 1 "dataiskole" 100; mkHero 2 "bob" 101]
           [mkLink 1 2; mkLink 9 1]).
  exists (mkHero 1 "dataiskole" 100). split; [|reflexivity].
  apply list_elem_of_here.
Defined.

Example analyze_dataiskole_dangling_friend :
  friend_ids [mkLink 1 2; mkLink 9 1] 1 = [2; 9]
  ∧ analyze_dataiskole [mkHero 1 "dataiskole" 100; mkHero 2 "bob" 101]
      [mkLink 1 2; mkLink 9 1]
    = Friends 100 ["bob"].
Proof. split; reflexivity. Qed.

(** ** Adding a connection *)

Lemma ids_by_name_nil (superheroes : list Hero) (nm : string) :
  (∀ h, h ∈ superheroes → hero_name h ≠ nm) →
  map hero_id
    (Pandas.loc_mask superheroes
       (Pandas.eq_mask (map hero_name superheroes) nm)) = [].
Proof.
  intros Hno. rewrite (loc_eq_mask (A:=Hero)).
  induction superheroes as [|h superheroes IH]; [done|].
  rewrite filter_cons_False by (apply Hno, list_elem_of_here).
  apply IH. intros h' Hin. by apply Hno, list_elem_of_further.
Qed.

(** C3.  When one of the two names is the name of no row, [add_connection]
    takes its not-found exit and both files, the edges among them, are left
    exactly as they were. *)
Theorem add_connection_unknown_name (fs : files) (name1 name2 : string) :
  (∀ h, h ∈ superheroes_csv fs → hero_name h ≠ name1)
  ∨ (∀ h, h ∈ superheroes_csv fs → hero_name h ≠ name2) →
  add_connection fs name1 name2 = (fs, NodeNotFound).
Proof.
  intros Hno. unfold add_connection.
  rewrite decide_True; [done|].
  destruct Hno as [Hno|Hno]; [left|right]; by apply ids_by_name_nil.
Qed.

Lemma add_connection_unknown_name_witness :
  add_connection
    (mkFiles [mkHero 1 "ada" 100; mkHero 2 "bob" 101] [mkLink 1 2])
    "ada" "zed"
  = (mkFiles [mkHero 1 "ada" 100; mkHero 2 "bob" 101] [mkLink 1 2],
     NodeNotFound).
Proof.
  apply (add_connection_unknown_name
           (mkFiles [mkHero 1 "ada" 100; mkHero 2 "bob" 101] [mkLink 1 2])
           "ada" "zed").
  right. intros h Hin. cbn in Hin.
  apply elem_of_cons in Hin as [->|Hin]; [done|].
  apply elem_of_cons in Hin as [->|Hin]; [done|].
  by apply elem_of_nil in Hin.
Defined.

(** A name carried by exactly one row each: the edge between the two ids is
    appended. *)
Lemma add_connection_single_match (fs : files) (name1 name2 : string)
    (a b : Z) :
  map hero_id (filter (λ h, hero_name h = name1) (superheroes_csv fs)) = [a] →
  map hero_id (filter (λ h, hero_name h = name2) (superheroes_csv fs)) = [b] →
  add_connection fs name1 name2
  = (mkFiles (superheroes_csv fs) (links_csv fs ++ [mkLink a b]), Added).
Proof.
  intros Ha Hb. unfold add_connection.
  rewrite !(loc_eq_mask (A:=Hero)), Ha, Hb.
  rewrite decide_False; [done|]. intros [?|?]; discriminate.
Qed.

(** C9 fails on the code.  When both names are carried by some row and
    one of them by more than one, [add_connection] does not resolve the
    repeated name to its first row: [int(...)] raises TypeError on the
    Series of several ids, no edge is appended and both files are left as
    they were. *)
Theorem add_connection_duplicate_name_raises (fs : files)
    (name1 name2 : string) :
  (1 ≤ length (filter (λ h, hero_name h = name1) (superheroes_csv fs)))%nat →
  (1 ≤ length (filter (λ h, hero_name h = name2) (superheroes_csv fs)))%nat →
  (1 < length (filter (λ h, hero_name h = name1) (superheroes_csv fs))
   ∨ 1 < length (filter (λ h, hero_name h = name2) (superheroes_csv fs)))%nat →
  add_connection fs name1 name2 = (fs, Raised TypeError).
Proof.
  intros H1 H2 Hdup. unfold add_connection.
  rewrite !(loc_eq_mask (A:=Hero)).
  destruct (filter (λ h, hero_name h = name1) (superheroes_csv fs))
    as [|r1 [|r1' rs1]];
    destruct (filter (λ h, hero_name h = name2) (superheroes_csv fs))
      as [|r2 [|r2' rs2]];
    cbn in H1, H2, Hdup; try lia;
    (rewrite decide_False; [done|]; intros [?|?]; discriminate).
Qed.

Lemma add_connection_duplicate_name_raises_witness :
  add_connection
    (mkFiles [mkHero 1 "ada" 100; mkHero 2 "ada" 101; mkHero 3 "bob" 102]
       [mkLink 2 3])
    "ada" "bob"
  = (mkFiles [mkHero 1 "ada" 100; mkHero 2 "ada" 101; mkHero 3 "bob" 102]
       [mkLink 2 3],
     Raised TypeError).
Proof.
  apply (add_connection_duplicate_name_raises
           (mkFiles
              [mkHero 1 "ada" 100; mkHero 2 "ada" 101; mkHero 3 "bob" 102]
              [mkLink 2 3])
           "ada" "bob").
  - vm_compute. lia.
  - vm_compute. lia.
  - left. vm_compute. lia.
Defined.

(** ** Adding a superhero *)

Lemma fold_max_spec (col : list Z) (c : Z) :
  (fold_left Z.max col c ∈ c :: col)
  ∧ ∀ y, y ∈ c :: col → y ≤ fold_left Z.max col c.
Proof.
  revert c. induction col as [|x col IH]; intros c; cbn.
  - split; [apply list_elem_of_here|].
    intros y Hy. apply list_elem_of_singleton in Hy. lia.
  - destruct (IH (Z.max c x)) as [Hin Hub]. split.
    + apply elem_of_cons in Hin as [Heq|Hin].
      * rewrite Heq. destruct (Z.max_spec c x) as [[_ ->]|[_ ->]];
          [apply list_elem_of_further|]; apply list_elem_of_here.
      * by do 2 apply list_elem_of_further.
    + intros y Hy.
      assert (Z.max c x ≤ fold_left Z.max col (Z.max c x)) as Hm
        by apply Hub, list_elem_of_here.
      apply elem_of_cons in Hy as [->|Hy]; [lia|].
      apply elem_of_cons in Hy as [->|Hy]; [lia|].
      by apply Hub, list_elem_of_further.
Qed.

(** On a non-empty collection whose largest id [m] leaves room in an int64,
    the new id is [m + 1]. *)
Lemma next_node_id_nonempty (superheroes : list Hero) (m : Z) :
  m ∈ map hero_id superheroes →
  (∀ y, y ∈ map hero_id superheroes → y ≤ m) →
  - 2 ^ 63 ≤ m < 2 ^ 63 - 1 →
  next_node_id superheroes = Pandas.Int64 (m + 1).
Proof.
  intros Hm Hub Hrange. unfold next_node_id.
  destruct (map hero_id superheroes) as [|c col];
    [by apply elem_of_nil in Hm|].
  cbn. destruct (fold_max_spec col c) as [Hin Hmax].
  assert (fold_left Z.max col c = m) as ->.
  { apply Z.le_antisymm; [by apply Hub|by apply Hmax]. }
  f_equal. unfold Pandas.wrap64.
  rewrite Z.mod_small by lia. lia.
Qed.

(** C4 fails on the code.  On an empty collection [max()] is NaN, so the id
    computed, announced and written for the new row is NaN and not 1. *)
Theorem add_superhero_empty_collection (name : string) (today : Z) :
  add_superhero [] name today
  = ([mkRow Pandas.NaN name today], Pandas.NaN)
  ∧ next_node_id [] ≠ Pandas.Int64 1.
Proof. split; [reflexivity|discriminate]. Qed.

Example add_superhero_after_three :
  add_superhero [mkHero 4 "ada" 100; mkHero 9 "bob" 101; mkHero 3 "cy" 102]
    "nova" 103
  = ([mkRow (Pandas.Int64 4) "ada" 100; mkRow (Pandas.Int64 9) "bob" 101;
      mkRow (Pandas.Int64 3) "cy" 102; mkRow (Pandas.Int64 10) "nova" 103],
     Pandas.Int64 10).
Proof. reflexivity. Qed.

(** * Further properties *)

(** ** The connection counts *)

Lemma elem_of_keys_Counter (xs : list Z) (v : Z) :
  v ∈ (Collections.Counter xs).*1 ↔ v ∈ xs.
Proof. by rewrite keys_Counter, elem_of_unique. Qed.

Lemma Counter_item (xs : list Z) (v : Z) :
  v ∈ xs → (v, Collections.get (Collections.Counter xs) v) ∈ Collections.Counter xs.
Proof.
  intros Hv. apply elem_of_keys_Counter, list_elem_of_fmap in Hv
    as ([v' n] & -> & Hin). cbn.
  rewrite (get_key _ (v', n)); [done| |done].
  rewrite keys_Counter. apply NoDup_unique.
Qed.

Lemma sum_incr (c : Collections.counter) (x : Z) :
  sum_list (Collections.incr c x).*2 = S (sum_list c.*2).
Proof.
  induction c as [|[y n] c IH]; cbn; [done|].
  destruct (decide (x = y)); cbn; [done|]. rewrite IH. lia.
Qed.

Lemma sum_fold_incr (xs : list Z) (c : Collections.counter) :
  sum_list (fold_left Collections.incr xs c).*2
  = (sum_list c.*2 + length xs)%nat.
Proof.
  revert c. induction xs as [|x xs IH]; intros c; cbn [fold_left length];
    [lia|].
  rewrite IH, sum_incr. lia.
Qed.

(** X1.  Every link is counted at both of its ends: the counts of
    [connection_counts] add up to twice the number of links. *)
Theorem connection_counts_total (links : list Link) :
  sum_list (connection_counts links).*2 = (2 * count_edges links)%nat.
Proof.
  unfold connection_counts, Collections.Counter, endpoints_by_column,
    count_edges.
  rewrite sum_fold_incr, length_app, !length_map. cbn. lia.
Qed.

Lemma sorted_desc_Counter_outranks (xs : list Z) :
  StronglySorted (outranks xs)
    (Collections.sorted_desc (Collections.Counter xs)).
Proof. apply sorted_desc_stable, Counter_first_seen. Qed.

(** X2.  The ranking really holds the most connected ids: an id that occurs
    in the links and is left out of the ranking has a degree no larger than
    that of any ranked id. *)
Theorem top_k_by_degree_maximal (links : list Link) (k : nat) :
  ∀ p v,
    p ∈ top_k_by_degree k links →
    v ∈ endpoints_by_column links →
    v ∉ (top_k_by_degree k links).*1 →
    (degree links v ≤ p.2)%nat.
Proof.
  intros p v Hp Hv Hout.
  unfold top_k_by_degree, Collections.most_common, degree, connection_counts
    in *.
  set (c := Collections.Counter (endpoints_by_column links)) in *.
  pose proof (sorted_desc_Counter_outranks (endpoints_by_column links)) as Hs.
  fold c in Hs. rewrite <-(take_drop k (Collections.sorted_desc c)) in Hs.
  pose proof (Counter_item _ v Hv) as Hitem. fold c in Hitem.
  generalize dependent (Collections.get c v). intros n Hitem.
  assert ((v, n) ∈ drop k (Collections.sorted_desc c)) as Hdrop.
  { rewrite <-sorted_desc_perm, <-(take_drop k (Collections.sorted_desc c))
      in Hitem.
    apply elem_of_app in Hitem as [Htake|Hdrop]; [|done].
    destruct Hout. apply list_elem_of_fmap. by exists (v, n). }
  by destruct (StronglySorted_app_1_elem_of _ _ _ _ _ Hs Hp Hdrop).
Qed.

Lemma top_k_by_degree_maximal_witness :
  (degree [mkLink 1 2; mkLink 1 3; mkLink 1 4; mkLink 2 3] 4 ≤ (3, 2%nat).2)%nat.
Proof.
  apply (top_k_by_degree_maximal
           [mkLink 1 2; mkLink 1 3; mkLink 1 4; mkLink 2 3] 3 (3, 2%nat) 4).
  - vm_compute. do 2 apply list_elem_of_further. apply list_elem_of_here.
  - vm_compute. do 6 apply list_elem_of_further. apply list_elem_of_here.
  - vm_compute. intros Hin.
    repeat (apply elem_of_cons in Hin as [Heq|Hin]; [discriminate Heq|]).
    by apply elem_of_nil in Hin.
Defined.

(** X3.  No id is ranked twice, and once [k] reaches the number of distinct
    ids occurring in the links the ranking lists every one of them. *)
Theorem top_k_by_degree_ids (links : list Link) (k : nat) :
  NoDup (top_k_by_degree k links).*1
  ∧ ((Pandas.nunique (endpoints_by_column links) ≤ k)%nat →
     ∀ v, v ∈ (top_k_by_degree k links).*1 ↔ v ∈ endpoints_by_column links).
Proof.
  unfold top_k_by_degree, Collections.most_common, connection_counts.
  set (c := Collections.Counter (endpoints_by_column links)).
  assert (NoDup (Collections.sorted_desc c).*1) as Hnd.
  { rewrite sorted_desc_perm. unfold c. rewrite keys_Counter.
    apply NoDup_unique. }
  split.
  - rewrite fmap_take. eapply sublist_NoDup; [exact Hnd|apply sublist_take].
  - intros Hk v. rewrite take_ge.
    + rewrite sorted_desc_perm. apply elem_of_keys_Counter.
    + rewrite sorted_desc_perm. unfold Pandas.nunique in Hk.
      by rewrite <-keys_Counter, length_fmap in Hk.
Qed.

(** ** What [basic_stats] prints *)

Lemma names_of_id_cons (superheroes : list Hero) (v : Z) :
  names_of_id superheroes v ≠ [] ↔ ∃ h, h ∈ superheroes ∧ hero_id h = v.
Proof.
  rewrite names_of_id_filter. split.
  - destruct (filter (λ h, hero_id h = v) superheroes) as [|h l] eqn:Hf;
      [done|]. intros _. exists h.
    assert (h ∈ h :: l) as Hh by apply list_elem_of_here.
    rewrite <-Hf in Hh. apply list_elem_of_filter in Hh. tauto.
  - intros (h & Hin & Hid) Hnil. apply fmap_nil_inv in Hnil.
    by apply (filter_nil_not_elem_of _ _ h Hnil Hid).
Qed.

Lemma basic_stats_fields (superheroes : list Hero) (links : list Link)
    (today : Z) :
  top_3 (basic_stats superheroes links today)
  = (top_connected superheroes links 3).1
  ∧ raised (basic_stats superheroes links today)
    = (top_connected superheroes links 3).2.
Proof.
  unfold basic_stats. by destruct (top_connected superheroes links 3).
Qed.

(** X4.  [basic_stats] gets through its ranking section exactly when each
    of the (at most three) ranked ids is carried by some row; it then
    prints one line per ranked id, with the name of the first row carrying
    the id and the id's degree.  Otherwise it ends in IndexError.  An id
    without a row that does not reach the top three goes unnoticed. *)
Theorem basic_stats_ranking_section (superheroes : list Hero)
    (links : list Link) (today : Z) :
  (raised (basic_stats superheroes links today) = None
   ↔ ∀ p, p ∈ top_k_by_degree 3 links →
          ∃ h, h ∈ superheroes ∧ hero_id h = p.1)
  ∧ (raised (basic_stats superheroes links today) = None
     ∨ raised (basic_stats superheroes links today) = Some IndexError)
  ∧ (raised (basic_stats superheroes links today) = None →
     Forall2 (line_of superheroes)
       (top_3 (basic_stats superheroes links today))
       (top_k_by_degree 3 links)).
Proof.
  destruct (basic_stats_fields superheroes links today) as [-> ->].
  unfold top_connected. set (top := top_k_by_degree 3 links).
  destruct (decide (Forall (λ p, names_of_id superheroes p.1 ≠ []) top))
    as [Hall|Hsome].
  - destruct (top_connected_loop_ok superheroes top Hall)
      as (printed & -> & Hlines). cbn.
    split; [|split; [by left|done]]. split; [|done].
    intros _ p Hp. apply names_of_id_cons.
    by apply (proj1 (Forall_forall _ _) Hall).
  - assert (Exists (λ p, names_of_id superheroes p.1 = []) top) as Hex.
    { apply not_Forall_Exists in Hsome; [|apply _].
      eapply Exists_impl; [exact Hsome|]. cbn. intros p Hp.
      by destruct (decide (names_of_id superheroes p.1 = [])). }
    destruct (top_connected_loop_raises superheroes top Hex)
      as (printed & before & q & after & -> & _ & _ & _). cbn.
    split; [|split; [by right|done]]. split; [done|].
    intros Hall. destruct Hsome. apply Forall_forall. intros p Hp.
    by apply names_of_id_cons, Hall.
Qed.

Example basic_stats_unnoticed_dangling_id :
  raised
    (basic_stats
       [mkHero 1 "ada" 100; mkHero 2 "bob" 101; mkHero 3 "cy" 102]
       [mkLink 1 2; mkLink 1 3; mkLink 2 3; mkLink 3 9] 103)
  = None.
Proof. reflexivity. Qed.

(** ** Recency *)

(** X5.  As the days pass rows only leave the recent list: the rows recent
    at a later date are, in the same order, among the rows recent at an
    earlier date. *)
Theorem recent_heroes_shrinks (superheroes : list Hero) (today later : Z) :
  today ≤ later →
  recent_heroes superheroes later `sublist_of` recent_heroes superheroes today.
Proof.
  intros Hle. unfold recent_heroes. rewrite !recent_nodes_filter.
  induction superheroes as [|h superheroes IH]; [done|].
  destruct (decide (later - 3 ≤ hero_created_at h)) as [Hl|Hl].
  - rewrite !filter_cons_True by lia. by apply sublist_skip.
  - rewrite (filter_cons_False (λ h, later - 3 ≤ _)) by done.
    destruct (decide (today - 3 ≤ hero_created_at h)) as [Ht|Ht].
    + rewrite filter_cons_True by done. by apply sublist_cons.
    + by rewrite filter_cons_False by done.
Qed.

Lemma recent_heroes_shrinks_witness :
  recent_heroes [mkHero 1 "ada" 100; mkHero 2 "bob" 103] 105
  `sublist_of` recent_heroes [mkHero 1 "ada" 100; mkHero 2 "bob" 103] 103.
Proof.
  apply (recent_heroes_shrinks
           [mkHero 1 "ada" 100; mkHero 2 "bob" 103] 103 105).
  lia.
Defined.

(** ** Counting rows and ids *)

Lemma length_unique_from_le (seen : gset Z) (col : list Z) :
  (length (Pandas.unique_from seen col) ≤ length col)%nat.
Proof.
  revert seen. induction col as [|c col IH]; intros seen; cbn; [lia|].
  destruct (decide (c ∈ seen)); cbn.
  - specialize (IH seen). lia.
  - specialize (IH ({[c]} ∪ seen)). lia.
Qed.

Lemma unique_from_full (seen : gset Z) (col : list Z) :
  length (Pandas.unique_from seen col) = length col →
  Pandas.unique_from seen col = col.
Proof.
  revert seen. induction col as [|c col IH]; intros seen; cbn; [done|].
  destruct (decide (c ∈ seen)); cbn; intros Hlen.
  - pose proof (length_unique_from_le seen col). lia.
  - f_equal. apply IH. lia.
Qed.

(** X6.  The number of superheroes announced equals the number of rows
    exactly when no two rows carry the same id. *)
Theorem count_nodes_rows_iff (superheroes : list Hero) :
  count_nodes superheroes = length superheroes
  ↔ NoDup (map hero_id superheroes).
Proof.
  unfold count_nodes, Pandas.nunique.
  rewrite <-(length_map hero_id superheroes). split.
  - intros Hlen. rewrite <-(unique_from_full ∅ _ Hlen) at 1.
    apply NoDup_unique.
  - intros Hnd. f_equal.
    generalize dependent (map hero_id superheroes). intros col Hnd.
    unfold Pandas.unique.
    assert (∀ seen : gset Z, (∀ x, x ∈ col → x ∉ seen) →
              Pandas.unique_from seen col = col) as Hgen.
    { induction Hnd as [|c col Hc Hnd IH]; intros seen Hfresh; cbn; [done|].
      rewrite decide_False by (apply Hfresh, list_elem_of_here).
      f_equal. apply IH. intros x Hx.
      assert (x ≠ c) by (intros ->; done).
      specialize (Hfresh x (list_elem_of_further _ _ _ Hx)). set_solver. }
    apply Hgen. set_solver.
Qed.

(** ** Friends *)

Lemma length_unique_le (col : list Z) :
  (length (Pandas.unique col) ≤ length col)%nat.
Proof. apply length_unique_from_le. Qed.

Lemma friend_ids_nil (links : list Link) (v : Z) :
  friend_ids links v = [] ↔ ∀ e, e ∈ links → source e ≠ v ∧ target e ≠ v.
Proof.
  split.
  - intros Hnil e He. split; intros Hv.
    + assert (target e ∈ friend_ids links v) as Hin
        by (apply elem_of_friend_ids; left; eauto).
      rewrite Hnil in Hin. by apply elem_of_nil in Hin.
    + assert (source e ∈ friend_ids links v) as Hin
        by (apply elem_of_friend_ids; right; eauto).
      rewrite Hnil in Hin. by apply elem_of_nil in Hin.
  - intros Hno. destruct (friend_ids links v) as [|x l] eqn:Hf; [done|].
    assert (x ∈ friend_ids links v) as Hx
      by (rewrite Hf; apply list_elem_of_here).
    apply elem_of_friend_ids in Hx as [(e & He & Hs & _)|(e & He & Ht & _)];
      destruct (Hno e He); done.
Qed.

Lemma length_filter_zero {A} (P : A → Prop) `{!∀ x, Decision (P x)}
    (l : list A) :
  length (filter P l) = 0%nat ↔ ∀ x, x ∈ l → ¬ P x.
Proof.
  induction l as [|a l IH].
  - split; [intros _ x Hx; by apply elem_of_nil in Hx|done].
  - destruct (decide (P a)) as [Ha|Ha].
    + rewrite filter_cons_True by done. cbn. split; [lia|].
      intros Hno. destruct (Hno a); [apply list_elem_of_here|done].
    + rewrite filter_cons_False by done. rewrite IH. split.
      * intros Hno x Hx. apply elem_of_cons in Hx as [->|Hx]; auto.
      * intros Hno x Hx. by apply Hno, list_elem_of_further.
Qed.

Lemma friend_ids_nil_degree (links : list Link) (v : Z) :
  friend_ids links v = [] ↔ degree links v = 0%nat.
Proof.
  rewrite degree_columns, friend_ids_nil, Nat.eq_add_0, !length_filter_zero.
  split.
  - intros Hno. split; intros e He; by destruct (Hno e He).
  - intros [Hs Ht] e He. split; [by apply Hs|by apply Ht].
Qed.

(** X7.  An id has no friend ids exactly when its degree is 0, and it never
    has more friend ids than its degree (repeated links and the two ends of
    a self-loop give one friend id each). *)
Theorem friend_ids_and_degree (links : list Link) (v : Z) :
  (friend_ids links v = [] ↔ degree links v = 0%nat)
  ∧ (length (friend_ids links v) ≤ degree links v)%nat.
Proof.
  split; [apply friend_ids_nil_degree|]. rewrite degree_columns.
  unfold friend_ids. etrans; [apply length_unique_le|].
  rewrite !(loc_eq_mask (A:=Link)), length_app, !length_map. lia.
Qed.

(** X8.  Being a friend id is mutual: [x] is among the friend ids of [v]
    exactly when [v] is among those of [x], whichever way round the link
    was stored. *)
Theorem friend_ids_mutual (links : list Link) (v x : Z) :
  x ∈ friend_ids links v ↔ v ∈ friend_ids links x.
Proof. rewrite !elem_of_friend_ids. naive_solver. Qed.

(** ** The report *)

Lemma neighbor_report_filter (who : string) (superheroes : list Hero)
    (links : list Link) :
  neighbor_report who superheroes links
  = match filter (λ h, hero_name h = who) superheroes with
    | [] => NotFound
    | row :: _ =>
        if decide (friend_ids links (hero_id row) = [])
        then NoFriends (hero_created_at row)
        else Friends (hero_created_at row)
               (map hero_name
                  (filter (λ h, hero_id h ∈ friend_ids links (hero_id row))
                     superheroes))
    end.
Proof.
  unfold neighbor_report. rewrite (loc_eq_mask (A:=Hero)).
  destruct (filter (λ h, hero_name h = who) superheroes) as [|row rows];
    [done|].
  rewrite (loc_isin (A:=Hero)).
  destruct (friend_ids links (hero_id row)) as [|x ids]; [done|].
  rewrite decide_False by (cbn; lia). by rewrite decide_False.
Qed.

(** X9.  The report says "not found" exactly when no row carries the name;
    for a name that is carried it says "no friends" exactly when the id of
    the first row with that name has degree 0. *)
Theorem neighbor_report_cases (who : string) (superheroes : list Hero)
    (links : list Link) :
  (neighbor_report who superheroes links = NotFound
   ↔ ∀ h, h ∈ superheroes → hero_name h ≠ who)
  ∧ (∀ row,
       head (filter (λ h, hero_name h = who) superheroes) = Some row →
       (neighbor_report who superheroes links
        = NoFriends (hero_created_at row)
        ↔ degree links (hero_id row) = 0%nat)).
Proof.
  rewrite neighbor_report_filter. split.
  - destruct (filter (λ h, hero_name h = who) superheroes) as [|row rows]
      eqn:Hf.
    + split; [|done]. intros _ h Hin Hname.
      by apply (filter_nil_not_elem_of _ _ h Hf Hname).
    + split; [by destruct (decide _)|]. intros Hno.
      assert (row ∈ row :: rows) as Hrow by apply list_elem_of_here.
      rewrite <-Hf in Hrow. apply list_elem_of_filter in Hrow as [Hn Hin].
      by destruct (Hno row Hin).
  - intros row Hrow.
    destruct (filter (λ h, hero_name h = who) superheroes) as [|row' rows];
      [done|]. injection Hrow as ->.
    rewrite <-friend_ids_nil_degree.
    by destruct (decide (friend_ids links (hero_id row) = [])).
Qed.

Lemma neighbor_report_ext (who : string) (superheroes : list Hero)
    (links links' : list Link) :
  (∀ v x, x ∈ friend_ids links v ↔ x ∈ friend_ids links' v) →
  neighbor_report who superheroes links
  = neighbor_report who superheroes links'.
Proof.
  intros Hsame. rewrite !neighbor_report_filter.
  destruct (filter (λ h, hero_name h = who) superheroes) as [|row rows];
    [done|].
  assert (friend_ids links (hero_id row) = []
          ↔ friend_ids links' (hero_id row) = []) as Hnil.
  { split; intros Hnil; apply elem_of_nil_inv; intros x Hx;
      apply Hsame in Hx; rewrite Hnil in Hx; by apply elem_of_nil in Hx. }
  destruct (decide (friend_ids links (hero_id row) = [])) as [Hl|Hl],
           (decide (friend_ids links' (hero_id row) = [])) as [Hl'|Hl'];
    try tauto.
  do 2 f_equal. apply list_filter_iff. intros h. apply Hsame.
Qed.

(** X10.  The report does not depend on how the links are stored: it is
    the same when every link is written the other way round, and the same
    when the links come in another order. *)
Theorem neighbor_report_storage_independent (who : string)
    (superheroes : list Hero) (links : list Link) :
  neighbor_report who superheroes (map reverse_link links)
  = neighbor_report who superheroes links
  ∧ (∀ links', links' ≡ₚ links →
       neighbor_report who superheroes links'
       = neighbor_report who superheroes links).
Proof.
  split.
  - apply neighbor_report_ext. intros v x. rewrite !elem_of_friend_ids.
    setoid_rewrite list_elem_of_fmap. split.
    + intros [(e & (e' & -> & He') & Hs & Ht)|(e & (e' & -> & He') & Ht & Hs)];
        cbn in *; [right|left]; eauto.
    + intros [(e & He & Hs & Ht)|(e & He & Ht & Hs)];
        [right|left]; exists (reverse_link e); cbn; eauto.
  - intros links' Hperm. apply neighbor_report_ext. intros v x.
    rewrite !elem_of_friend_ids. by setoid_rewrite Hperm.
Qed.

(** ** The graph that is drawn *)

Section graph_facts.

Import Networkx.

Lemma well_keyed_empty : well_keyed empty.
Proof. intros n. cbn. by rewrite !lookup_empty. Qed.

Lemma well_keyed_add_node (G : Graph) (n : Z) (l : string) :
  well_keyed G → well_keyed (add_node G n l).
Proof.
  intros Hwf m. unfold add_node.
  destruct (node G !! n) as [a|] eqn:Hn; cbn; rewrite !lookup_insert.
  - case_decide as Hm; [subst m|apply Hwf].
    split; [done|]. intros Hadj. apply Hwf in Hadj. congruence.
  - case_decide; [done|apply Hwf].
Qed.

Lemma neighbors_add_node (G : Graph) (n : Z) (l : string) (v : Z) :
  well_keyed G → neighbors (add_node G n l) v = neighbors G v.
Proof.
  intros Hwf. unfold add_node, neighbors.
  destruct (node G !! n) as [a|] eqn:Hn; cbn; [done|].
  rewrite lookup_insert. case_decide; [subst v|done].
  by rewrite (proj1 (Hwf n) Hn).
Qed.

Lemma dom_node_add_node (G : Graph) (n : Z) (l : string) :
  dom (node (add_node G n l)) = {[n]} ∪ dom (node G).
Proof.
  unfold add_node. destruct (node G !! n); cbn; by rewrite dom_insert_L.
Qed.

Lemma well_keyed_touch (G : Graph) (n : Z) :
  well_keyed G → well_keyed (touch G n).
Proof.
  intros Hwf m. unfold touch.
  destruct (node G !! n) as [a|] eqn:Hn; cbn; [apply Hwf|].
  rewrite !lookup_insert. case_decide; [done|apply Hwf].
Qed.

Lemma dom_node_touch (G : Graph) (n : Z) :
  dom (node (touch G n)) = {[n]} ∪ dom (node G).
Proof.
  unfold touch. destruct (node G !! n) as [a|] eqn:Hn; cbn.
  - assert (n ∈ dom (node G)) by (apply elem_of_dom; eauto). set_solver.
  - by rewrite dom_insert_L.
Qed.

Lemma adj_touch (G : Graph) (n m : Z) :
  well_keyed G → m = n ∨ is_Some (adj G !! m) →
  adj (touch G n) !! m = Some (neighbors G m).
Proof.
  intros Hwf Hm. unfold touch, neighbors.
  destruct (node G !! n) as [a|] eqn:Hn; cbn.
  - assert (is_Some (adj G !! m)) as [s Hs].
    { destruct Hm as [->|Hm]; [|done].
      destruct (adj G !! n) eqn:Hadj; [eauto|].
      apply Hwf in Hadj. congruence. }
    by rewrite Hs.
  - rewrite lookup_insert. case_decide as Hnm.
    + subst m. by rewrite (proj1 (Hwf n) Hn).
    + destruct Hm as [->|[s Hs]]; [done|]. by rewrite Hs.
Qed.

Lemma neighbors_touch (G : Graph) (n v : Z) :
  well_keyed G → neighbors (touch G n) v = neighbors G v.
Proof.
  intros Hwf. unfold touch, neighbors.
  destruct (node G !! n) as [a|] eqn:Hn; cbn; [done|].
  rewrite lookup_insert. case_decide; [subst v|done].
  by rewrite (proj1 (Hwf n) Hn).
Qed.

Lemma well_keyed_add_edge (G : Graph) (u w : Z) :
  well_keyed G → well_keyed (add_edge G u w).
Proof.
  intros Hwf m. unfold add_edge. cbn.
  pose proof (well_keyed_touch _ w (well_keyed_touch _ u Hwf)) as Hwf'.
  rewrite (Hwf' m), !lookup_alter.
  repeat case_decide; subst; rewrite ?fmap_None; done.
Qed.

Lemma dom_node_add_edge (G : Graph) (u w : Z) :
  dom (node (add_edge G u w)) = {[u; w]} ∪ dom (node G).
Proof. unfold add_edge. cbn. rewrite !dom_node_touch. set_solver. Qed.

Lemma neighbors_add_edge (G : Graph) (u w v : Z) :
  well_keyed G →
  neighbors (add_edge G u w) v
  = neighbors G v
    ∪ (if decide (v = u) then {[w]} else ∅)
    ∪ (if decide (v = w) then {[u]} else ∅).
Proof.
  intros Hwf. pose proof (well_keyed_touch _ u Hwf) as Hwf1.
  assert (adj (touch (touch G u) w) !! u = Some (neighbors G u)) as Hu.
  { rewrite (adj_touch _ w u Hwf1), neighbors_touch; [done..|].
    right. rewrite (adj_touch G u u Hwf); eauto. }
  assert (adj (touch (touch G u) w) !! w = Some (neighbors G w)) as Hw.
  { rewrite (adj_touch _ w w Hwf1), neighbors_touch; eauto. }
  unfold add_edge, neighbors at 1. cbn. rewrite !lookup_alter.
  destruct (decide (w = v)) as [->|Hwv], (decide (u = v)) as [->|Huv].
  - rewrite Hu. cbn. rewrite !decide_True by done. set_solver.
  - rewrite Hw. cbn. rewrite decide_False, decide_True by done. set_solver.
  - rewrite Hu. cbn. rewrite decide_True, decide_False by done. set_solver.
  - rewrite !decide_False by done.
    change (default ∅ (adj (touch (touch G u) w) !! v))
      with (neighbors (touch (touch G u) w) v).
    rewrite !neighbors_touch by done. set_solver.
Qed.

End graph_facts.

Lemma graph_nodes_phase (superheroes : list Hero) (G : Networkx.Graph) :
  well_keyed G →
  well_keyed
    (fold_left (λ G h, Networkx.add_node G (hero_id h) (hero_name h))
       superheroes G)
  ∧ dom (Networkx.node
           (fold_left (λ G h, Networkx.add_node G (hero_id h) (hero_name h))
              superheroes G))
    = list_to_set (map hero_id superheroes) ∪ dom (Networkx.node G)
  ∧ ∀ v, Networkx.neighbors
           (fold_left (λ G h, Networkx.add_node G (hero_id h) (hero_name h))
              superheroes G) v
         = Networkx.neighbors G v.
Proof.
  revert G. induction superheroes as [|h superheroes IH]; intros G Hwf.
  - cbn. split; [done|]. split; [set_solver|done].
  - cbn [fold_left map list_to_set].
    destruct (IH _ (well_keyed_add_node G (hero_id h) (hero_name h) Hwf))
      as (Hwf' & Hdom & Hnb).
    split; [done|]. split.
    + rewrite Hdom, dom_node_add_node. set_solver.
    + intros v. by rewrite Hnb, neighbors_add_node.
Qed.

Lemma graph_links_phase (links : list Link) (G : Networkx.Graph) :
  well_keyed G →
  well_keyed
    (fold_left (λ G e, Networkx.add_edge G (source e) (target e)) links G)
  ∧ dom (Networkx.node
           (fold_left (λ G e, Networkx.add_edge G (source e) (target e))
              links G))
    = list_to_set (endpoints_by_column links) ∪ dom (Networkx.node G)
  ∧ ∀ v, Networkx.neighbors
           (fold_left (λ G e, Networkx.add_edge G (source e) (target e))
              links G) v
         = Networkx.neighbors G v
           ∪ list_to_set (map target (filter (λ e, source e = v) links))
           ∪ list_to_set (map source (filter (λ e, target e = v) links)).
Proof.
  unfold endpoints_by_column.
  revert G. induction links as [|e links IH]; intros G Hwf.
  - cbn. split; [done|]. split; set_solver.
  - cbn [fold_left map].
    destruct (IH _ (well_keyed_add_edge G (source e) (target e) Hwf))
      as (Hwf' & Hdom & Hnb).
    split; [done|]. split.
    + rewrite Hdom, dom_node_add_edge, !list_to_set_app_L. cbn. set_solver.
    + intros v. rewrite Hnb, neighbors_add_edge by done.
      destruct (decide (source e = v)) as [Hs|Hs],
               (decide (target e = v)) as [Ht|Ht];
        repeat first
          [ rewrite filter_cons_True by done
          | rewrite filter_cons_False by done
          | rewrite decide_True by done
          | rewrite decide_False by done ];
        cbn; set_solver.
Qed.

Lemma graph_of_phases (superheroes : list Hero) (links : list Link) :
  dom (Networkx.node (graph_of superheroes links))
  = list_to_set (map hero_id superheroes)
    ∪ list_to_set (endpoints_by_column links)
  ∧ ∀ v, Networkx.neighbors (graph_of superheroes links) v
         = list_to_set (map target (filter (λ e, source e = v) links))
           ∪ list_to_set (map source (filter (λ e, target e = v) links)).
Proof.
  unfold graph_of.
  destruct (graph_nodes_phase superheroes _ well_keyed_empty)
    as (Hwf & Hdom & Hnb).
  destruct (graph_links_phase links _ Hwf) as (_ & Hdom' & Hnb').
  split.
  - rewrite Hdom', Hdom. cbn. rewrite dom_empty_L. set_solver.
  - intros v. rewrite Hnb', Hnb. unfold Networkx.neighbors at 1. cbn.
    rewrite lookup_empty. cbn. set_solver.
Qed.

(** X11.  The nodes of the drawn graph are the ids of the rows together
    with the ids occurring in the links: a hero without links is drawn, and
    so is a link end that no row carries. *)
Theorem draw_graph_nodes (superheroes : list Hero) (links : list Link) :
  dom (Networkx.node (draw_graph superheroes links).1)
  = list_to_set (map hero_id superheroes)
    ∪ list_to_set (endpoints_by_column links).
Proof. apply graph_of_phases. Qed.

(** X12.  In the drawn graph the neighbours of an id are exactly its
    friend ids: the picture and the report of [analyze_dataiskole] show
    the same connections, repeated links and links stored the other way
    round drawn once. *)
Theorem draw_graph_neighbors (superheroes : list Hero) (links : list Link)
    (v : Z) :
  Networkx.neighbors (draw_graph superheroes links).1 v
  = list_to_set (friend_ids links v).
Proof.
  cbn. rewrite (proj2 (graph_of_phases superheroes links)).
  apply set_eq. intros x.
  rewrite elem_of_list_to_set, elem_of_friend_ids, elem_of_union,
    !elem_of_list_to_set, !list_elem_of_fmap.
  setoid_rewrite list_elem_of_filter. naive_solver.
Qed.

Lemma last_names_of_id_cons (h : Hero) (superheroes : list Hero) (v : Z) :
  last (names_of_id (h :: superheroes) v)
  = match last (names_of_id superheroes v) with
    | Some nm => Some nm
    | None => if decide (hero_id h = v) then Some (hero_name h) else None
    end.
Proof.
  rewrite !names_of_id_filter.
  destruct (decide (hero_id h = v)) as [Hv|Hv].
  - rewrite filter_cons_True by done. cbn [map]. rewrite last_cons.
    by destruct (last _).
  - rewrite filter_cons_False by done. by destruct (last _).
Qed.

Lemma labels_fold_lookup (superheroes : list Hero) (m : gmap Z string)
    (v : Z) :
  fold_left (λ labels h, <[hero_id h := hero_name h]> labels) superheroes m
    !! v
  = match last (names_of_id superheroes v) with
    | Some nm => Some nm
    | None => m !! v
    end.
Proof.
  revert m. induction superheroes as [|h superheroes IH]; intros m; [done|].
  cbn [fold_left]. rewrite IH, last_names_of_id_cons.
  destruct (last (names_of_id superheroes v)); [done|].
  rewrite lookup_insert. by destruct (decide (hero_id h = v)).
Qed.

Lemma labels_of_lookup (superheroes : list Hero) (v : Z) :
  labels_of superheroes !! v = last (names_of_id superheroes v).
Proof.
  unfold labels_of. rewrite labels_fold_lookup, lookup_empty.
  by destruct (last _).
Qed.

(** X13.  The label drawn for an id is the name of the last row carrying
    it (the ranking of [basic_stats] prints the name of the first one), and
    a node is drawn without a label exactly when it is a link end that no
    row carries. *)
Theorem draw_graph_labels (superheroes : list Hero) (links : list Link)
    (v : Z) :
  (draw_graph superheroes links).2 !! v = last (names_of_id superheroes v)
  ∧ (v ∈ dom (Networkx.node (draw_graph superheroes links).1)
     ∧ (draw_graph superheroes links).2 !! v = None
     ↔ v ∈ endpoints_by_column links
       ∧ ∀ h, h ∈ superheroes → hero_id h ≠ v).
Proof.
  cbn. rewrite labels_of_lookup. split; [done|].
  rewrite (proj1 (graph_of_phases superheroes links)), last_None,
    names_of_id_nil, elem_of_union, !elem_of_list_to_set, list_elem_of_fmap.
  split.
  - intros [[(h & -> & Hin)|Hend] Hno]; [by destruct (Hno h Hin)|done].
  - intros [Hend Hno]. split; [by right|done].
Qed.

Example draw_graph_label_of_repeated_id :
  (draw_graph [mkHero 1 "ada" 100; mkHero 1 "eve" 101] [mkLink 1 1]).2 !! 1
  = Some "eve"
  ∧ (top_connected [mkHero 1 "ada" 100; mkHero 1 "eve" 101] [mkLink 1 1] 3).1
    = [("ada", 2%nat)].
Proof. split; reflexivity. Qed.

(** ** Adding a superhero to a non-empty table *)

(** X14.  On a non-empty table whose ids leave room in an int64, the id
    given to the new row is one more than the largest id, so it is larger
    than the id of every row already there and carried by none of them;
    the rows already there are written back unchanged, the new row last. *)
Theorem add_superhero_fresh_id (superheroes : list Hero) (name : string)
    (today : Z) :
  superheroes ≠ [] →
  (∀ h, h ∈ superheroes → - 2 ^ 63 ≤ hero_id h < 2 ^ 63 - 1) →
  ∃ m,
    add_superhero superheroes name today
    = (map row_of_hero superheroes ++ [mkRow (Pandas.Int64 (m + 1)) name today],
       Pandas.Int64 (m + 1))
    ∧ m ∈ map hero_id superheroes
    ∧ ∀ h, h ∈ superheroes → hero_id h < m + 1.
Proof.
  intros Hne Hrange.
  destruct superheroes as [|h0 superheroes]; [done|].
  destruct (fold_max_spec (map hero_id superheroes) (hero_id h0))
    as [Hin Hmax].
  set (m := fold_left Z.max (map hero_id superheroes) (hero_id h0)) in *.
  change (hero_id h0 :: map hero_id superheroes)
    with (map hero_id (h0 :: superheroes)) in *.
  exists m.
  assert (∀ h, h ∈ h0 :: superheroes → hero_id h ≤ m) as Hub.
  { intros h Hh. apply Hmax. apply list_elem_of_fmap. eauto. }
  split; [|split; [done|]].
  - unfold add_superhero.
    rewrite (next_node_id_nonempty (h0 :: superheroes) m); [done|done| |].
    + intros y Hy. by apply Hmax.
    + apply list_elem_of_fmap in Hin as (h & -> & Hh).
      specialize (Hrange h Hh). lia.
  - intros h Hh. specialize (Hub h Hh). lia.
Qed.

Lemma add_superhero_fresh_id_witness :
  ∃ m,
    add_superhero [mkHero 4 "ada" 100; mkHero 9 "bob" 101] "nova" 103
    = (map row_of_hero [mkHero 4 "ada" 100; mkHero 9 "bob" 101]
         ++ [mkRow (Pandas.Int64 (m + 1)) "nova" 103],
       Pandas.Int64 (m + 1))
    ∧ m ∈ map hero_id [mkHero 4 "ada" 100; mkHero 9 "bob" 101]
    ∧ ∀ h, h ∈ [mkHero 4 "ada" 100; mkHero 9 "bob" 101] → hero_id h < m + 1.
Proof.
  apply (add_superhero_fresh_id
           [mkHero 4 "ada" 100; mkHero 9 "bob" 101] "nova" 103).
  - discriminate.
  - intros h Hh.
    apply elem_of_cons in Hh as [->|Hh]; [cbn; lia|].
    apply elem_of_cons in Hh as [->|Hh]; [cbn; lia|].
    by apply elem_of_nil in Hh.
Defined.

(** X15.  At the end of the int64 range the addition wraps: when the
    largest id is 2^63 - 1 the new row gets the id -2^63. *)
Theorem add_superhero_id_wraps (superheroes : list Hero) (name : string)
    (today : Z) :
  2 ^ 63 - 1 ∈ map hero_id superheroes →
  (∀ h, h ∈ superheroes → hero_id h ≤ 2 ^ 63 - 1) →
  (add_superhero superheroes name today).2 = Pandas.Int64 (- 2 ^ 63).
Proof.
  intros Hin Hub. cbn. unfold next_node_id.
  destruct (map hero_id superheroes) as [|c col] eqn:Hcol;
    [by apply elem_of_nil in Hin|].
  cbn. destruct (fold_max_spec col c) as [Hm Hmax].
  assert (fold_left Z.max col c = 2 ^ 63 - 1) as ->; [|done].
  apply Z.le_antisymm; [|by apply Hmax].
  rewrite <-Hcol in Hm. apply list_elem_of_fmap in Hm as (h & -> & Hh).
  by apply Hub.
Qed.

Lemma add_superhero_id_wraps_witness :
  (add_superhero [mkHero 7 "ada" 100; mkHero (2 ^ 63 - 1) "bob" 101]
     "nova" 103).2
  = Pandas.Int64 (- 2 ^ 63).
Proof.
  apply (add_superhero_id_wraps
           [mkHero 7 "ada" 100; mkHero (2 ^ 63 - 1) "bob" 101] "nova" 103).
  - cbn [map hero_id]. apply list_elem_of_further, list_elem_of_here.
  - intros h Hh.
    apply elem_of_cons in Hh as [->|Hh]; [cbn; lia|].
    apply elem_of_cons in Hh as [->|Hh]; [cbn; lia|].
    by apply elem_of_nil in Hh.
Defined.

(** ** Adding a connection: every way the call can end *)

Lemma add_connection_filter (fs : files) (name1 name2 : string) :
  add_connection fs name1 name2
  = match filter (λ h, hero_name h = name1) (superheroes_csv fs),
          filter (λ h, hero_name h = name2) (superheroes_csv fs) with
    | [], _ | _, [] => (fs, NodeNotFound)
    | [r1], [r2] =>
        (mkFiles (superheroes_csv fs)
           (links_csv fs ++ [mkLink (hero_id r1) (hero_id r2)]), Added)
    | _, _ => (fs, Raised TypeError)
    end.
Proof.
  unfold add_connection. rewrite !(loc_eq_mask (A:=Hero)).
  destruct (filter (λ h, hero_name h = name1) (superheroes_csv fs))
    as [|r1 [|r1' l1]];
    destruct (filter (λ h, hero_name h = name2) (superheroes_csv fs))
      as [|r2 [|r2' l2]]; cbn [map];
    first [ by rewrite decide_True by (by (left + right))
          | rewrite decide_False by (intros [?|?]; discriminate); done ].
Qed.

Lemma add_connection_added_inv (fs fs' : files) (name1 name2 : string) :
  add_connection fs name1 name2 = (fs', Added) →
  ∃ r1 r2,
    filter (λ h, hero_name h = name1) (superheroes_csv fs) = [r1]
    ∧ filter (λ h, hero_name h = name2) (superheroes_csv fs) = [r2]
    ∧ fs' = mkFiles (superheroes_csv fs)
              (links_csv fs ++ [mkLink (hero_id r1) (hero_id r2)]).
Proof.
  rewrite add_connection_filter.
  destruct (filter (λ h, hero_name h = name1) (superheroes_csv fs))
    as [|r1 [|r1' l1]];
    destruct (filter (λ h, hero_name h = name2) (superheroes_csv fs))
      as [|r2 [|r2' l2]];
    intros [= <-]; eauto.
Qed.

(** X16.  [add_connection] appends an edge exactly when each of the two
    names is carried by exactly one row; the edge appended joins the ids
    of these two rows, in the order the names were given, and goes last. *)
Theorem add_connection_added_iff (fs fs' : files) (name1 name2 : string) :
  add_connection fs name1 name2 = (fs', Added)
  ↔ ∃ r1 r2,
      filter (λ h, hero_name h = name1) (superheroes_csv fs) = [r1]
      ∧ filter (λ h, hero_name h = name2) (superheroes_csv fs) = [r2]
      ∧ fs' = mkFiles (superheroes_csv fs)
                (links_csv fs ++ [mkLink (hero_id r1) (hero_id r2)]).
Proof.
  rewrite add_connection_filter.
  destruct (filter (λ h, hero_name h = name1) (superheroes_csv fs))
    as [|r1 [|r1' l1]];
    destruct (filter (λ h, hero_name h = name2) (superheroes_csv fs))
      as [|r2 [|r2' l2]];
    (split; [intros [= <-]; eauto | intros (? & ? & [= ->] & [= ->] & ->)]);
    try done.
Qed.

(** X17.  Whatever the names, [add_connection] leaves the superheroes as
    they are and never drops, changes or reorders a link: the links before
    the call are the first links after it, at most one link is added, and
    unless the call ends with "Connection added" nothing changes at all. *)
Theorem add_connection_keeps_files (fs : files) (name1 name2 : string) :
  superheroes_csv (add_connection fs name1 name2).1 = superheroes_csv fs
  ∧ links_csv fs `prefix_of` links_csv (add_connection fs name1 name2).1
  ∧ (length (links_csv (add_connection fs name1 name2).1)
     ≤ S (length (links_csv fs)))%nat
  ∧ ((add_connection fs name1 name2).2 ≠ Added →
     (add_connection fs name1 name2).1 = fs).
Proof.
  rewrite add_connection_filter.
  destruct (filter (λ h, hero_name h = name1) (superheroes_csv fs))
    as [|r1 [|r1' l1]];
    destruct (filter (λ h, hero_name h = name2) (superheroes_csv fs))
      as [|r2 [|r2' l2]]; cbn;
    (split; [done|]); (split; [try done; by apply prefix_app_r|]);
    (split; [try lia; rewrite length_app; cbn; lia|]); done.
Qed.

(** ** Adding a connection, then querying *)

Lemma degree_snoc (links : list Link) (e : Link) (v : Z) :
  degree (links ++ [e]) v
  = (degree links v
     + (if decide (source e = v) then 1 else 0)
     + (if decide (target e = v) then 1 else 0))%nat.
Proof.
  rewrite !degree_columns, !filter_app, !length_app.
  destruct (decide (source e = v)), (decide (target e = v));
    repeat first
      [ rewrite filter_cons_True by done
      | rewrite filter_cons_False by done ];
    cbn; lia.
Qed.

(** X18.  After a connection has been added the queries see it: there is
    one more link, the degree of each of the two ids has grown by one (by
    two when both names stand for the same id), the degree of every other
    id is as before, and each of the two ids is among the friend ids of
    the other. *)
Theorem add_connection_then_query (fs fs' : files) (name1 name2 : string) :
  add_connection fs name1 name2 = (fs', Added) →
  ∃ r1 r2,
    r1 ∈ superheroes_csv fs ∧ hero_name r1 = name1
    ∧ r2 ∈ superheroes_csv fs ∧ hero_name r2 = name2
    ∧ count_edges (links_csv fs') = S (count_edges (links_csv fs))
    ∧ (∀ v, degree (links_csv fs') v
            = (degree (links_csv fs) v
               + (if decide (hero_id r1 = v) then 1 else 0)
               + (if decide (hero_id r2 = v) then 1 else 0))%nat)
    ∧ hero_id r2 ∈ friend_ids (links_csv fs') (hero_id r1)
    ∧ hero_id r1 ∈ friend_ids (links_csv fs') (hero_id r2).
Proof.
  intros Hadd. apply add_connection_added_inv in Hadd
    as (r1 & r2 & H1 & H2 & ->).
  exists r1, r2.
  assert (r1 ∈ filter (λ h, hero_name h = name1) (superheroes_csv fs)) as Hr1
    by (rewrite H1; apply list_elem_of_here).
  assert (r2 ∈ filter (λ h, hero_name h = name2) (superheroes_csv fs)) as Hr2
    by (rewrite H2; apply list_elem_of_here).
  apply list_elem_of_filter in Hr1 as [Hn1 Hr1].
  apply list_elem_of_filter in Hr2 as [Hn2 Hr2].
  repeat split; try done; cbn [links_csv].
  - unfold count_edges. rewrite length_app. cbn. lia.
  - intros v. apply degree_snoc.
  - apply elem_of_friend_ids. left.
    exists (mkLink (hero_id r1) (hero_id r2)).
    split; [|done]. apply elem_of_app. right. apply list_elem_of_here.
  - apply elem_of_friend_ids. right.
    exists (mkLink (hero_id r1) (hero_id r2)).
    split; [|done]. apply elem_of_app. right. apply list_elem_of_here.
Qed.

Lemma add_connection_then_query_witness :
  ∃ r1 r2,
    r1 ∈ [mkHero 1 "ada" 100; mkHero 2 "bob" 101] ∧ hero_name r1 = "ada"
    ∧ r2 ∈ [mkHero 1 "ada" 100; mkHero 2 "bob" 101] ∧ hero_name r2 = "bob"
    ∧ count_edges [mkLink 2 1; mkLink 1 2] = S (count_edges [mkLink 2 1])
    ∧ (∀ v, degree [mkLink 2 1; mkLink 1 2] v
            = (degree [mkLink 2 1] v
               + (if decide (hero_id r1 = v) then 1 else 0)
               + (if decide (hero_id r2 = v) then 1 else 0))%nat)
    ∧ hero_id r2 ∈ friend_ids [mkLink 2 1; mkLink 1 2] (hero_id r1)
    ∧ hero_id r1 ∈ friend_ids [mkLink 2 1; mkLink 1 2] (hero_id r2).
Proof.
  apply (add_connection_then_query
           (mkFiles [mkHero 1 "ada" 100; mkHero 2 "bob" 101] [mkLink 2 1])
           (mkFiles [mkHero 1 "ada" 100; mkHero 2 "bob" 101]
              [mkLink 2 1; mkLink 1 2])
           "ada" "bob").
  reflexivity.
Defined.

(** X19.  Nothing is refused once the names resolve: a call that added a
    connection adds the same connection again when repeated, so the link
    is then stored twice, and giving the same name twice adds a link from
    the id to itself. *)
Theorem add_connection_repeated (fs fs' : files) (name1 name2 : string) :
  add_connection fs name1 name2 = (fs', Added) →
  ∃ e,
    links_csv fs' = links_csv fs ++ [e]
    ∧ add_connection fs' name1 name2
      = (mkFiles (superheroes_csv fs) (links_csv fs ++ [e; e]), Added)
    ∧ (name1 = name2 → source e = target e).
Proof.
  intros Hadd. apply add_connection_added_inv in Hadd
    as (r1 & r2 & H1 & H2 & ->).
  exists (mkLink (hero_id r1) (hero_id r2)). split; [done|]. split.
  - rewrite add_connection_filter. cbn [superheroes_csv links_csv].
    rewrite H1, H2, <-app_assoc. done.
  - intros <-. rewrite H1 in H2. by injection H2 as ->.
Qed.

Lemma add_connection_repeated_witness :
  ∃ e,
    links_csv (mkFiles [mkHero 1 "ada" 100] [mkLink 1 1]) = [] ++ [e]
    ∧ add_connection (mkFiles [mkHero 1 "ada" 100] [mkLink 1 1]) "ada" "ada"
      = (mkFiles (superheroes_csv (mkFiles [mkHero 1 "ada" 100] []))
           ([] ++ [e; e]), Added)
    ∧ ("ada" = "ada" → source e = target e).
Proof.
  apply (add_connection_repeated
           (mkFiles [mkHero 1 "ada" 100] [])
           (mkFiles [mkHero 1 "ada" 100] [mkLink 1 1])
           "ada" "ada").
  reflexivity.
Defined.
